(** * mock-server-backend: the service layer ([app/services.py])

    A shallow embedding of the service functions of the mock-server
    backend, over an explicit model of the five tables the Django ORM
    manages for them, and the properties of the design document proved
    (or refuted) on that embedding.

    Layout: the persistence model (tables, query-set operations), the
    exception/state monad the services run in, the services themselves
    in source order, then the lemmas. *)

From Stdlib Require Import List ZArith String Ascii Bool Lia Permutation DecimalString.
Import ListNotations.
Local Open Scope Z_scope.
Local Open Scope list_scope.

Set Implicit Arguments.

(* ================================================================== *)
(** * Rows of the five models *)
(* ================================================================== *)

(** [BaseEndpoint(id, endpoint)]. *)
Record BaseEndpoint := mkBaseEndpoint {
  be_id : Z;
  be_endpoint : string
}.

(** [RelativeEndpoint(id, base_endpoint_id, endpoint, method,
    regex_endpoint, meta_data)]; [meta_data] is stored as text
    ([data_import] writes [json.dumps(...)] into it). *)
Record RelativeEndpoint := mkRelativeEndpoint {
  re_id : Z;
  re_base_endpoint_id : Z;
  re_endpoint : string;
  re_method : string;
  re_regex_endpoint : string;
  re_meta_data : string
}.

(** [Field(id, relative_endpoint_id, key, value, type, is_array)]. *)
Record Field := mkField {
  f_id : Z;
  f_relative_endpoint_id : Z;
  f_key : string;
  f_value : string;
  f_type : string;
  f_is_array : bool
}.

(** [Schema(id, name)]. *)
Record Schema := mkSchema {
  s_id : Z;
  s_name : string
}.

(** [SchemaData(id, schema_id, key, type, value)]; [value] is an
    integer: an index into [PrimitiveDataType.CHOICES] or a schema id. *)
Record SchemaData := mkSchemaData {
  sd_id : Z;
  sd_schema_id : Z;
  sd_key : string;
  sd_type : string;
  sd_value : Z
}.

(* ================================================================== *)
(** * Tables and query-set operations *)
(* ================================================================== *)

(** A table is its rows, in insertion order, together with the
    auto-increment high-water mark of its primary key: a key handed out
    once is not handed out again, also after the row is deleted. *)
Record Table (R : Type) := mkTable {
  rows : list R;
  last_pk : Z
}.

Definition empty_table (R : Type) : Table R := mkTable [] 0.

Definition max_pk (ids : list Z) : Z := fold_right Z.max 0 ids.

Section QuerySet.
Variable R : Type.
Variable pk : R -> Z.

(** The key the next [create] gets. *)
Definition next_pk (t : Table R) : Z :=
  Z.max (last_pk t) (max_pk (map pk (rows t))) + 1.

(** [Model.objects.create(...)]: [mk] builds the row from its key. *)
Definition create (mk : Z -> R) (t : Table R) : R * Table R :=
  let i := next_pk t in (mk i, mkTable (rows t ++ [mk i]) i).

(** [Model.objects.bulk_create([...])] of unsaved objects, in order. *)
Fixpoint bulk_create (mks : list (Z -> R)) (t : Table R) : Table R :=
  match mks with
  | [] => t
  | mk :: rest => bulk_create rest (snd (create mk t))
  end.

(** [bulk_create] of objects that already carry their key.  The
    database refuses a key that is repeated or already in the table
    (and a repeated value of a unique column) with [IntegrityError];
    that outcome is not modelled, and a statement about an arbitrary
    payload carries the distinctness as a hypothesis. *)
Definition bulk_create_keyed (new : list R) (t : Table R) : Table R :=
  mkTable (rows t ++ new) (Z.max (last_pk t) (max_pk (map pk new))).

(** [qs.filter(p).delete()]. *)
Definition delete_where (p : R -> bool) (t : Table R) : Table R :=
  mkTable (filter (fun r => negb (p r)) (rows t)) (last_pk t).

(** [Model.objects.all().delete()]. *)
Definition delete_all (t : Table R) : Table R := mkTable [] (last_pk t).

(** [qs.filter(p).update(...)]: [f] rewrites the updated columns. *)
Definition update_where (p : R -> bool) (f : R -> R) (t : Table R) : Table R :=
  mkTable (map (fun r => if p r then f r else r) (rows t)) (last_pk t).

(** [qs.filter(p).exists()]. *)
Definition exists_where (p : R -> bool) (t : Table R) : bool :=
  existsb p (rows t).
End QuerySet.

(** Exceptions a service call can end in. *)
Inductive exn :=
| NotAllowed (msg : string)
| DoesNotExist
| MultipleObjectsReturned
| KeyError (key : string)
| ValueError
| JSONDecodeError.

(** [qs.get(p)]: the one matching row, or an exception. *)
Definition orm_get (R : Type) (p : R -> bool) (t : Table R) : exn + R :=
  match filter p (rows t) with
  | [] => inl DoesNotExist
  | [r] => inr r
  | _ :: _ :: _ => inl MultipleObjectsReturned
  end.

(** The database: one table per model. *)
Record DB := mkDB {
  base_endpoints : Table BaseEndpoint;
  relative_endpoints : Table RelativeEndpoint;
  fields : Table Field;
  schemas : Table Schema;
  schema_datas : Table SchemaData
}.

Definition set_base_endpoints (t : Table BaseEndpoint) (db : DB) : DB :=
  mkDB t (relative_endpoints db) (fields db) (schemas db) (schema_datas db).
Definition set_relative_endpoints (t : Table RelativeEndpoint) (db : DB) : DB :=
  mkDB (base_endpoints db) t (fields db) (schemas db) (schema_datas db).
Definition set_fields (t : Table Field) (db : DB) : DB :=
  mkDB (base_endpoints db) (relative_endpoints db) t (schemas db) (schema_datas db).
Definition set_schemas (t : Table Schema) (db : DB) : DB :=
  mkDB (base_endpoints db) (relative_endpoints db) (fields db) t (schema_datas db).
Definition set_schema_datas (t : Table SchemaData) (db : DB) : DB :=
  mkDB (base_endpoints db) (relative_endpoints db) (fields db) (schemas db) t.

(* ================================================================== *)
(** * The monad of a service call *)
(* ================================================================== *)

(** A service reads and writes the database and may raise.  The
    services do not open a transaction themselves, so the writes done
    before a [raise] stay in the state that is returned with it. *)
Definition M (A : Type) : Type := DB -> DB * (exn + A).

Definition ret (A : Type) (a : A) : M A := fun db => (db, inr a).
Definition raise (A : Type) (e : exn) : M A := fun db => (db, inl e).
Definition bind (A B : Type) (m : M A) (k : A -> M B) : M B :=
  fun db =>
    match m db with
    | (db', inl e) => (db', inl e)
    | (db', inr a) => k a db'
    end.
Definition read (A : Type) (f : DB -> A) : M A := fun db => (db, inr (f db)).
Definition write (f : DB -> DB) : M unit := fun db => (f db, inr tt).
Definition lift (A : Type) (f : DB -> exn + A) : M A := fun db => (db, f db).

Arguments raise {A} e.

Notation "x <- m ;; k" := (bind m (fun x => k))
  (at level 61, m at next level, right associativity).
Notation "m ;;; k" := (bind m (fun _ => k))
  (at level 61, right associativity).

(** Python helpers. *)
Definition str_in (v : string) (l : list string) : bool := existsb (String.eqb v) l.
Definition join (sep : string) (l : list string) : string := String.concat sep l.

(** [l.index(v)]: position of the first occurrence. *)
Fixpoint index (v : string) (l : list string) : option Z :=
  match l with
  | [] => None
  | x :: rest =>
      if String.eqb x v then Some 0
      else match index v rest with
           | Some i => Some (i + 1)
           | None => None
           end
  end.

(* ================================================================== *)
(** * base_endpoint_add *)
(* ================================================================== *)

(** [s.startswith('/')]. *)
Definition startswith_slash (s : string) : bool :=
  match s with
  | String c _ => Ascii.eqb c "/"%char
  | EmptyString => false
  end.

(** [s[1:]]. *)
Definition drop_first (s : string) : string :=
  match s with
  | String _ rest => rest
  | EmptyString => EmptyString
  end.

(** [BaseEndpoint.objects.get_or_create(endpoint=e)]: the pair
    [(object, created)]. *)
Definition base_endpoint_get_or_create (e : string) : M (BaseEndpoint * bool) :=
  fun db =>
    match orm_get (fun r => String.eqb (be_endpoint r) e) (base_endpoints db) with
    | inr r => (db, inr (r, false))
    | inl DoesNotExist =>
        let (r, t) := create be_id (fun i => mkBaseEndpoint i e) (base_endpoints db) in
        (set_base_endpoints t db, inr (r, true))
    | inl ex => (db, inl ex)
    end.

(** [base_endpoint_add(data)], [data = {'endpoint': endpoint}]. *)
Definition base_endpoint_add (endpoint : string) : M (BaseEndpoint * bool) :=
  let endpoint := if startswith_slash endpoint then drop_first endpoint else endpoint in
  base_endpoint_get_or_create endpoint.

(* ================================================================== *)
(** * What the services import from [app/models.py] and [app/utils.py] *)
(* ================================================================== *)

(** The constants and helpers of the model layer the services use: the
    four [Field] type tags (as they print inside an f-string), the
    ordered [PrimitiveDataType.CHOICES], the derived
    [RelativeEndpoint.url_params] property and the path formatter, which
    returns the normalized path and its regex or raises. *)
Class Models := {
  SCHEMA : string;
  VALUE : string;
  URL_PARAM : string;
  QUERY_PARAM : string;
  CHOICES : list string;
  url_params : RelativeEndpoint -> list string;
  format_and_regex_endpoint : string -> exn + (string * string)
}.

(** The [json] module: parsed values, [json.loads] and [json.dumps]. *)
Class Json := {
  J : Type;
  json_loads : string -> option J;
  json_dumps : J -> string
}.

(* ================================================================== *)
(** * Detail views *)
(* ================================================================== *)

(** Modelled from the spec: [SchemaData.detail()] is not in the
    sources.  The view carries the row's columns, the owning schema
    under the key ['schema'] (the key [data_import] renames to
    [schema_id]). *)
Record SchemaDataDetail := mkSchemaDataDetail {
  sdd_id : Z;
  sdd_schema : Z;
  sdd_key : string;
  sdd_type : string;
  sdd_value : Z
}.

(** Modelled from the spec: [SchemaData.detail()], see above. *)
Definition schema_data_detail (r : SchemaData) : SchemaDataDetail :=
  mkSchemaDataDetail (sd_id r) (sd_schema_id r) (sd_key r) (sd_type r) (sd_value r).

(** Modelled from the spec: [Schema.detail()] is not in the sources.
    The view carries id and name and, under the key ['schema'] (the key
    [data_import] drops), the ordered field list of the schema. *)
Record SchemaDetail := mkSchemaDetail {
  sdt_id : Z;
  sdt_name : string;
  sdt_schema : list SchemaDataDetail
}.

(** Modelled from the spec: [Schema.detail()], see above. *)
Definition schema_detail (db : DB) (s : Schema) : SchemaDetail :=
  mkSchemaDetail (s_id s) (s_name s)
    (map schema_data_detail
       (filter (fun r => sd_schema_id r =? s_id s) (rows (schema_datas db)))).

(* ================================================================== *)
(** * schema_add *)
(* ================================================================== *)

(** One entry of [data['fields']]. *)
Record SchemaFieldIn := mkSchemaFieldIn {
  sfi_key : string;
  sfi_type : string;
  sfi_value : string
}.

(** The payload of [schema_add]. *)
Record SchemaIn := mkSchemaIn {
  si_name : string;
  si_fields : list SchemaFieldIn
}.

(** One entry of [data['fields']] of [endpoint_schema_update]: the
    keys [id] and [isChanged] may be absent; of [isChanged] only the
    truth value is used. *)
Record FieldIn := mkFieldIn {
  fi_id : option Z;
  fi_key : string;
  fi_type : string;
  fi_value : string;
  fi_is_array : bool;
  fi_isChanged : option bool
}.

(** The payload of [endpoint_schema_update]. *)
Record SchemaUpdateIn := mkSchemaUpdateIn {
  su_id : Z;
  su_fields : list FieldIn;
  su_meta_data : string
}.

(** The payload of [relative_endpoint_update]. *)
Record EndpointUpdateIn := mkEndpointUpdateIn {
  eu_id : Z;
  eu_endpoint : string;
  eu_method : string
}.

Section Services.
Context {models : Models}.

Definition invalid_data_type_msg : string :=
  ("Please enter valid data type, i.e. one of " ++ join ", " CHOICES)%string.

(** The body of the [for field in data['fields']] loop of
    [schema_add]: the unsaved [SchemaData] object, waiting for its
    key. *)
Definition schema_add_field (schema : Schema) (field : SchemaFieldIn)
  : M (Z -> SchemaData) :=
  if String.eqb (sfi_type field) "schema" then
    s <- lift (fun db =>
           orm_get (fun r => String.eqb (s_name r) (sfi_value field)) (schemas db)) ;;
    ret (fun i => mkSchemaData i (s_id schema) (sfi_key field) (sfi_type field) (s_id s))
  else if negb (str_in (sfi_value field) CHOICES) then
    raise (NotAllowed invalid_data_type_msg)
  else
    match index (sfi_value field) CHOICES with
    | Some n =>
        ret (fun i => mkSchemaData i (s_id schema) (sfi_key field) (sfi_type field) n)
    | None => raise ValueError
    end.

(** The loop; [pending] is the list [schema_datas] built so far. *)
Fixpoint schema_add_loop (schema : Schema) (fs : list SchemaFieldIn)
    (pending : list (Z -> SchemaData)) : M (list (Z -> SchemaData)) :=
  match fs with
  | [] => ret pending
  | field :: rest =>
      schema_data <- schema_add_field schema field ;;
      schema_add_loop schema rest (pending ++ [schema_data])
  end.

Definition schema_create (name : string) : M Schema :=
  fun db =>
    let (s, t) := create s_id (fun i => mkSchema i name) (schemas db) in
    (set_schemas t db, inr s).

Definition schema_add (data : SchemaIn) : M SchemaDetail :=
  taken <- read (fun db =>
             exists_where (fun r => String.eqb (s_name r) (si_name data)) (schemas db)) ;;
  if (taken : bool) then
    raise (NotAllowed (si_name data ++ " schema already exists")%string)
  else
    schema <- schema_create (si_name data) ;;
    pending <- schema_add_loop schema (si_fields data) [] ;;
    write (fun db => set_schema_datas (bulk_create sd_id pending (schema_datas db)) db) ;;;
    read (fun db => schema_detail db schema).

(* ---------------------------------------------------------------- *)
(** ** endpoint_schema_update *)
(* ---------------------------------------------------------------- *)

(** The ids the deletion of step one keeps:
    [[field['id'] for field in data['fields']
      if 'id' in field and field['id'] > 0]]. *)
Definition incoming_ids (fs : list FieldIn) : list Z :=
  flat_map (fun field =>
              match fi_id field with
              | Some i => if 0 <? i then [i] else []
              | None => []
              end) fs.

Definition id_in (i : Z) (ids : list Z) : bool := existsb (Z.eqb i) ids.

(** [endpoint.fields.exclude(id__in=ids).delete()]. *)
Definition delete_unlisted_fields (endpoint : RelativeEndpoint) (ids : list Z)
  : Table Field -> Table Field :=
  delete_where
    (fun r => (f_relative_endpoint_id r =? re_id endpoint) && negb (id_in (f_id r) ids)).

Definition schema_name_msg (field : FieldIn) (names : list string) : string :=
  ("Please enter valid schema name for '" ++ fi_key field ++ "', i.e. one of "
     ++ join ", " names)%string.
Definition data_type_msg (field : FieldIn) : string :=
  ("Please enter valid data type for '" ++ fi_key field ++ "', i.e. one of "
     ++ join ", " CHOICES)%string.
Definition url_param_msg (field : FieldIn) (available : list string) : string :=
  ("Please enter valid url param for '" ++ fi_key field ++ "', i.e. one of "
     ++ join ", " available)%string.
Definition query_param_msg (field : FieldIn) : string :=
  ("Please enter valid string for '" ++ fi_key field)%string.
Definition field_type_msg : string :=
  ("The field type should be one of " ++ SCHEMA ++ ", " ++ VALUE ++ ", " ++ URL_PARAM)%string.

(** The [if]/[elif] chain on [field['type']] of the validation loop:
    the message of the [NotAllowed] it raises, if it raises. *)
Definition check_field (names available : list string) (field : FieldIn)
  : option string :=
  if String.eqb (fi_type field) SCHEMA then
    if negb (str_in (fi_value field) names)
    then Some (schema_name_msg field names) else None
  else if String.eqb (fi_type field) VALUE then
    if negb (str_in (fi_value field) CHOICES)
    then Some (data_type_msg field) else None
  else if String.eqb (fi_type field) URL_PARAM then
    if negb (str_in (fi_value field) available)
    then Some (url_param_msg field available) else None
  else if String.eqb (fi_type field) QUERY_PARAM then
    if String.eqb (fi_value field) EmptyString
    then Some (query_param_msg field) else None
  else Some field_type_msg.

(** The validation loop, with its two accumulators. *)
Fixpoint validate_fields (names available : list string) (fs : list FieldIn)
    (fields_to_change new_fields : list FieldIn)
  : exn + (list FieldIn * list FieldIn) :=
  match fs with
  | [] => inr (fields_to_change, new_fields)
  | field :: rest =>
      match fi_isChanged field with
      | None => validate_fields names available rest fields_to_change new_fields
      | Some changed =>
          match check_field names available field with
          | Some msg => inl (NotAllowed msg)
          | None =>
              if changed
              then validate_fields names available rest
                     (fields_to_change ++ [field]) new_fields
              else validate_fields names available rest
                     fields_to_change (new_fields ++ [field])
          end
      end
  end.

(** The columns [update(key=..., value=..., type=..., is_array=...)]
    writes. *)
Definition overwrite_field (field : FieldIn) (r : Field) : Field :=
  mkField (f_id r) (f_relative_endpoint_id r)
    (fi_key field) (fi_value field) (fi_type field) (fi_is_array field).

(** [for field in fields_to_change:
       Field.objects.filter(id=field['id']).update(...)]. *)
Fixpoint update_fields (fs : list FieldIn) : M unit :=
  match fs with
  | [] => ret tt
  | field :: rest =>
      match fi_id field with
      | None => raise (KeyError "id")
      | Some i =>
          write (fun db =>
                   set_fields
                     (update_where (fun r => f_id r =? i) (overwrite_field field)
                        (fields db)) db) ;;;
          update_fields rest
      end
  end.

(** The unsaved [Field(...)] of the [bulk_create]. *)
Definition new_field (relative_endpoint_id : Z) (field : FieldIn) : Z -> Field :=
  fun i => mkField i relative_endpoint_id
             (fi_key field) (fi_value field) (fi_type field) (fi_is_array field).

(** [endpoint.save()]: writes every column of the in-memory object to
    the row with its key, or inserts it when there is none. *)
Definition save_relative_endpoint (endpoint : RelativeEndpoint)
    (t : Table RelativeEndpoint) : Table RelativeEndpoint :=
  if exists_where (fun r => re_id r =? re_id endpoint) t
  then update_where (fun r => re_id r =? re_id endpoint) (fun _ => endpoint) t
  else bulk_create_keyed re_id [endpoint] t.

Definition set_meta_data (meta_data : string) (r : RelativeEndpoint) : RelativeEndpoint :=
  mkRelativeEndpoint (re_id r) (re_base_endpoint_id r) (re_endpoint r)
    (re_method r) (re_regex_endpoint r) meta_data.

Definition endpoint_schema_update (data : SchemaUpdateIn) : M RelativeEndpoint :=
  endpoint <- lift (fun db =>
                orm_get (fun r => re_id r =? su_id data) (relative_endpoints db)) ;;
  write (fun db =>
           set_fields
             (delete_unlisted_fields endpoint (incoming_ids (su_fields data)) (fields db))
             db) ;;;
  let available_url_params := url_params endpoint in
  names <- read (fun db => map s_name (rows (schemas db))) ;;
  match validate_fields names available_url_params (su_fields data) [] [] with
  | inl e => raise e
  | inr (fields_to_change, new_fields) =>
      update_fields fields_to_change ;;;
      write (fun db =>
               set_fields
                 (bulk_create f_id (map (new_field (su_id data)) new_fields) (fields db))
                 db) ;;;
      let endpoint := set_meta_data (su_meta_data data) endpoint in
      write (fun db =>
               set_relative_endpoints
                 (save_relative_endpoint endpoint (relative_endpoints db)) db) ;;;
      ret endpoint
  end.

(* ---------------------------------------------------------------- *)
(** ** relative_endpoint_update *)
(* ---------------------------------------------------------------- *)

(** The columns [update(endpoint=..., method=..., regex_endpoint=...)]
    writes. *)
Definition overwrite_endpoint (endpoint method regex_endpoint : string)
    (r : RelativeEndpoint) : RelativeEndpoint :=
  mkRelativeEndpoint (re_id r) (re_base_endpoint_id r) endpoint method
    regex_endpoint (re_meta_data r).

(** The filter of the uniqueness test:
    [base_endpoint=..., endpoint=..., method=...]. *)
Definition same_url (base_endpoint_id : Z) (endpoint method : string)
    (r : RelativeEndpoint) : bool :=
  (re_base_endpoint_id r =? base_endpoint_id)
  && String.eqb (re_endpoint r) endpoint
  && String.eqb (re_method r) method.

(** [select_related] only prefetches the base endpoint; the row
    selected is the one with the given id. *)
Definition relative_endpoint_update (data : EndpointUpdateIn) : M unit :=
  relative_endpoint <- lift (fun db =>
                         orm_get (fun r => re_id r =? eu_id data) (relative_endpoints db)) ;;
  match format_and_regex_endpoint (eu_endpoint data) with
  | inl e => raise e
  | inr (endpoint, regex_endpoint) =>
      collides <- read (fun db =>
                    exists_where
                      (same_url (re_base_endpoint_id relative_endpoint) endpoint
                         (eu_method data))
                      (relative_endpoints db)) ;;
      if (collides : bool) then raise (NotAllowed "Endpoint with same url exists")
      else
        write (fun db =>
                 set_relative_endpoints
                   (update_where (fun r => re_id r =? eu_id data)
                      (overwrite_endpoint endpoint (eu_method data) regex_endpoint)
                      (relative_endpoints db)) db)
  end.

End Services.

(* ================================================================== *)
(** * data_export and data_import *)
(* ================================================================== *)

(** Modelled from the spec: [BaseEndpoint.detail()] is not in the
    sources.  [data_import] passes the view to the constructor as it
    is, so it carries the columns of the row. *)
Record BaseEndpointDetail := mkBaseEndpointDetail {
  bed_id : Z;
  bed_endpoint : string
}.

(** Modelled from the spec: [BaseEndpoint.detail()], see above. *)
Definition base_endpoint_detail (r : BaseEndpoint) : BaseEndpointDetail :=
  mkBaseEndpointDetail (be_id r) (be_endpoint r).

(** Modelled from the spec: [Field.detail()] is not in the sources.
    [data_import] adds [relative_endpoint_id] to the view and passes it
    to the constructor, so it carries the other columns of the row. *)
Record FieldDetail := mkFieldDetail {
  fd_id : Z;
  fd_key : string;
  fd_value : string;
  fd_type : string;
  fd_is_array : bool
}.

(** Modelled from the spec: [Field.detail()], see above. *)
Definition field_detail (r : Field) : FieldDetail :=
  mkFieldDetail (f_id r) (f_key r) (f_value r) (f_type r) (f_is_array r).

Section ExportImport.
Context {models : Models} {json : Json}.

(** Modelled from the spec: [RelativeEndpoint.detail()] is not in the
    sources.  The view carries the columns of the row, the owner under
    the key ['base_endpoint'], the parsed [meta_data], the derived
    [url_params] and, under ['fields'], the views of the fields of the
    endpoint (the keys [data_import] reads, renames or drops). *)
Record RelativeEndpointDetail := mkRelativeEndpointDetail {
  red_id : Z;
  red_base_endpoint : Z;
  red_endpoint : string;
  red_method : string;
  red_regex_endpoint : string;
  red_meta_data : J;
  red_url_params : list string;
  red_fields : list FieldDetail
}.

(** Modelled from the spec: [RelativeEndpoint.detail()], see above;
    parsing the stored [meta_data] can fail. *)
Definition relative_endpoint_detail (db : DB) (r : RelativeEndpoint)
  : exn + RelativeEndpointDetail :=
  match json_loads (re_meta_data r) with
  | None => inl JSONDecodeError
  | Some meta =>
      inr (mkRelativeEndpointDetail (re_id r) (re_base_endpoint_id r) (re_endpoint r)
             (re_method r) (re_regex_endpoint r) meta (url_params r)
             (map field_detail
                (filter (fun f => f_relative_endpoint_id f =? re_id r) (rows (fields db)))))
  end.

(** Modelled from the spec: the query set's [detail()] is the list of
    the views of its rows, in order. *)
Fixpoint relative_endpoints_detail (db : DB) (l : list RelativeEndpoint)
  : exn + list RelativeEndpointDetail :=
  match l with
  | [] => inr []
  | r :: rest =>
      match relative_endpoint_detail db r with
      | inl e => inl e
      | inr d =>
          match relative_endpoints_detail db rest with
          | inl e => inl e
          | inr ds => inr (d :: ds)
          end
      end
  end.

(** The snapshot [data_export] returns and [data_import] reads: a
    dictionary of five lists. *)
Record Snapshot := mkSnapshot {
  snap_base_endpoints : list BaseEndpointDetail;
  snap_relative_endpoints : list RelativeEndpointDetail;
  snap_schema : list SchemaDetail;
  snap_fields : list FieldDetail;
  snap_schema_data : list SchemaDataDetail
}.

Definition data_export : M Snapshot :=
  base <- read (fun db => map base_endpoint_detail (rows (base_endpoints db))) ;;
  relative <- lift (fun db => relative_endpoints_detail db (rows (relative_endpoints db))) ;;
  schema <- read (fun db => map (schema_detail db) (rows (schemas db))) ;;
  flds <- read (fun db => map field_detail (rows (fields db))) ;;
  schema_data <- read (fun db => map schema_data_detail (rows (schema_datas db))) ;;
  ret (mkSnapshot base relative schema flds schema_data).

(** The [BaseEndpoint] built from the keys of [endpoint]. *)
Definition import_base_endpoint (endpoint : BaseEndpointDetail) : BaseEndpoint :=
  mkBaseEndpoint (bed_id endpoint) (bed_endpoint endpoint).

(** [field['relative_endpoint_id'] = endpoint['id']], then
    the [Field] built from the keys of [field]. *)
Definition import_field (endpoint : RelativeEndpointDetail) (field : FieldDetail) : Field :=
  mkField (fd_id field) (red_id endpoint) (fd_key field) (fd_value field)
    (fd_type field) (fd_is_array field).

(** The view without ['fields'] and ['url_params'], with
    ['base_endpoint'] renamed and ['meta_data'] serialized again, given
    to the constructor of [RelativeEndpoint]. *)
Definition import_relative_endpoint (endpoint : RelativeEndpointDetail) : RelativeEndpoint :=
  mkRelativeEndpoint (red_id endpoint) (red_base_endpoint endpoint) (red_endpoint endpoint)
    (red_method endpoint) (red_regex_endpoint endpoint) (json_dumps (red_meta_data endpoint)).

(** The loop over [data['relative_endpoints']], with its two
    accumulators [relative_endpoints] and [fields]. *)
Fixpoint import_relative_endpoints (l : list RelativeEndpointDetail)
    (acc_endpoints : list RelativeEndpoint) (acc_fields : list Field)
  : list RelativeEndpoint * list Field :=
  match l with
  | [] => (acc_endpoints, acc_fields)
  | endpoint :: rest =>
      import_relative_endpoints rest
        (acc_endpoints ++ [import_relative_endpoint endpoint])
        (acc_fields ++ map (import_field endpoint) (red_fields endpoint))
  end.

(** The view without ['schema'], given to the constructor of [Schema]. *)
Definition import_schema (schema : SchemaDetail) : Schema :=
  mkSchema (sdt_id schema) (sdt_name schema).

(** The view with ['schema'] renamed to ['schema_id'], given to
    the constructor of [SchemaData]. *)
Definition import_schema_data (schema_data : SchemaDataDetail) : SchemaData :=
  mkSchemaData (sdd_id schema_data) (sdd_schema schema_data) (sdd_key schema_data)
    (sdd_type schema_data) (sdd_value schema_data).

Definition delete_everything (db : DB) : DB :=
  let db := set_base_endpoints (delete_all (base_endpoints db)) db in
  let db := set_relative_endpoints (delete_all (relative_endpoints db)) db in
  let db := set_fields (delete_all (fields db)) db in
  let db := set_schemas (delete_all (schemas db)) db in
  set_schema_datas (delete_all (schema_datas db)) db.

Definition data_import (data : Snapshot) : M unit :=
  write delete_everything ;;;
  write (fun db =>
           set_base_endpoints
             (bulk_create_keyed be_id (map import_base_endpoint (snap_base_endpoints data))
                (base_endpoints db)) db) ;;;
  let (new_endpoints, new_fields) :=
    import_relative_endpoints (snap_relative_endpoints data) [] [] in
  write (fun db =>
           set_relative_endpoints
             (bulk_create_keyed re_id new_endpoints (relative_endpoints db)) db) ;;;
  write (fun db => set_fields (bulk_create_keyed f_id new_fields (fields db)) db) ;;;
  write (fun db =>
           set_schemas
             (bulk_create_keyed s_id (map import_schema (snap_schema data)) (schemas db))
             db) ;;;
  write (fun db =>
           set_schema_datas
             (bulk_create_keyed sd_id (map import_schema_data (snap_schema_data data))
                (schema_datas db)) db).

End ExportImport.

(* ================================================================== *)
(** * Sample values *)
(* ================================================================== *)

(** Sample values for the imported constants, used where a statement
    is evaluated on concrete data: the tags print as their names, three
    primitive types, path templates with the one parameter [id], and a
    formatter that only adds the leading slash and anchors the path. *)
Definition sample_models : Models := {|
  SCHEMA := "SCHEMA";
  VALUE := "VALUE";
  URL_PARAM := "URL_PARAM";
  QUERY_PARAM := "QUERY_PARAM";
  CHOICES := ["string"; "integer"; "boolean"]%string;
  url_params := fun _ => ["id"%string];
  format_and_regex_endpoint := fun s =>
    let p := if startswith_slash s then s else ("/" ++ s)%string in
    inr (p, ("^" ++ p ++ "$")%string)
|}.

(** Sample [json]: every text parses to itself. *)
Definition sample_json : Json := {|
  J := string;
  json_loads := fun s => Some s;
  json_dumps := fun j => j
|}.

Definition empty_db : DB :=
  mkDB (empty_table _) (empty_table _) (empty_table _) (empty_table _) (empty_table _).

(* ================================================================== *)
(** * Invariants of the stored data *)
(* ================================================================== *)

(** [BaseEndpoint.endpoint] is unique. *)
Definition unique_endpoints (db : DB) : Prop :=
  NoDup (map be_endpoint (rows (base_endpoints db))).

(** [Schema.name] is unique. *)
Definition unique_schema_names (db : DB) : Prop :=
  NoDup (map s_name (rows (schemas db))).

(* ================================================================== *)
(** * Sample databases *)
(* ================================================================== *)

(** One base endpoint with one relative endpoint [GET /users]. *)
Definition db_one_endpoint : DB :=
  mkDB (mkTable [mkBaseEndpoint 1 "api"] 1)
       (mkTable [mkRelativeEndpoint 1 1 "/users" "GET" "^/users$" "{}"] 1)
       (empty_table _) (empty_table _) (empty_table _).

(* ================================================================== *)
(** * The schema builder as the design document words it *)
(* ================================================================== *)

Section SchemaBuilderSpec.
Context {models : Models}.

(** Design document, 4.3: "if type is "schema", resolve value (a schema
    name) to the existing Schema's id - fails if not found; otherwise
    validate value against the primitive-type enumeration and store its
    zero-based index - fails if not a recognized primitive name".
    [None] is the failure. *)
Definition spec_resolve (db : DB) (field : SchemaFieldIn) : option Z :=
  if String.eqb (sfi_type field) "schema" then
    option_map s_id
      (find (fun r => String.eqb (s_name r) (sfi_value field)) (rows (schemas db)))
  else index (sfi_value field) CHOICES.

(** The [SchemaData] row of a field that resolves, waiting for its key. *)
Definition spec_schema_data (db : DB) (schema : Schema) (field : SchemaFieldIn)
  : Z -> SchemaData :=
  fun i => mkSchemaData i (s_id schema) (sfi_key field) (sfi_type field)
             match spec_resolve db field with
             | Some v => v
             | None => 0
             end.

End SchemaBuilderSpec.

(** The [Schema] row [schema_add] creates for [name], and the database
    right after its creation. *)
Definition created_schema (name : string) (db : DB) : Schema :=
  mkSchema (next_pk s_id (schemas db)) name.

Definition with_created_schema (name : string) (db : DB) : DB :=
  set_schemas (mkTable (rows (schemas db) ++ [created_schema name db])
                 (next_pk s_id (schemas db))) db.

(** No schema has the name yet. *)
Definition name_free (name : string) (db : DB) : Prop :=
  forall s, In s (rows (schemas db)) -> s_name s <> name.

(** A field the builder rejects, in the words of the claim: type
    "schema" naming no schema, or another type with a value that is no
    primitive type name. *)
Definition field_invalid {models : Models} (db : DB) (field : SchemaFieldIn) : Prop :=
  (sfi_type field = "schema"%string
   /\ forall s, In s (rows (schemas db)) -> s_name s <> sfi_value field)
  \/ (sfi_type field <> "schema"%string /\ ~ In (sfi_value field) CHOICES).

(** Unsaved objects given consecutive keys from [i] on. *)
Fixpoint keyed_from (R : Type) (i : Z) (mks : list (Z -> R)) : list R :=
  match mks with
  | [] => []
  | mk :: rest => mk i :: keyed_from (i + 1) rest
  end.

(** Payloads for [schema_add]: a schema whose second field names an
    unknown primitive type, and a schema with a field of its own type. *)
Definition schema_in_bad : SchemaIn :=
  mkSchemaIn "User" [mkSchemaFieldIn "name" "primitive" "string";
                     mkSchemaFieldIn "age" "primitive" "float"].

Definition schema_in_node : SchemaIn :=
  mkSchemaIn "Node" [mkSchemaFieldIn "label" "primitive" "string";
                     mkSchemaFieldIn "next" "schema" "Node"].

(* ================================================================== *)
(** * The field reconciler as the design document words it *)
(* ================================================================== *)

(** Design document, 4.4 step 4: an entry carrying [isChanged] is an
    update when the marker is truthy and a creation when it is falsy;
    an entry without the marker is neither. *)
Definition marked_changed (field : FieldIn) : bool :=
  match fi_isChanged field with
  | Some true => true
  | _ => false
  end.

Definition marked_new (field : FieldIn) : bool :=
  match fi_isChanged field with
  | Some false => true
  | _ => false
  end.

(** Step 5: an update overwrites key, value, type and is_array of the
    row that has the entry's id, and leaves every other row alone. *)
Definition spec_update_row (field : FieldIn) (r : Field) : Field :=
  match fi_id field with
  | Some i =>
      if f_id r =? i
      then mkField (f_id r) (f_relative_endpoint_id r)
             (fi_key field) (fi_value field) (fi_type field) (fi_is_array field)
      else r
  | None => r
  end.

(** A row after all the updates of a request, applied in order. *)
Definition spec_updated_row (updates : list FieldIn) (r : Field) : Field :=
  fold_left (fun r0 field => spec_update_row field r0) updates r.

(** Step 1: the rows that survive the deletion are those of other
    endpoints and those whose id is among the positive incoming ids. *)
Definition spec_kept (endpoint_id : Z) (ids : list Z) (l : list Field) : list Field :=
  filter (fun r => negb (f_relative_endpoint_id r =? endpoint_id) || id_in (f_id r) ids) l.

(** Primary keys of the [Field] table: no repetition, and none above
    the auto-increment mark. *)
Definition field_keys_ok (db : DB) : Prop :=
  NoDup (map f_id (rows (fields db)))
  /\ forall r, In r (rows (fields db)) -> f_id r <= last_pk (fields db).

(** An endpoint [GET /users/{id}] with two fields and one schema. *)
Definition db_two_fields : DB :=
  mkDB (mkTable [mkBaseEndpoint 1 "api"] 1)
       (mkTable [mkRelativeEndpoint 1 1 "/users/{id}" "GET" "^/users/(?P<id>[^/]+)$" "{}"] 1)
       (mkTable [mkField 1 1 "name" "string" "VALUE" false;
                 mkField 2 1 "tags" "string" "VALUE" true] 2)
       (mkTable [mkSchema 1 "User"] 1)
       (empty_table _).

(** Field 1 is changed into a url parameter, field 2 is not listed,
    one field is new, and one unmarked entry with an unknown type. *)
Definition update_in_ok : SchemaUpdateIn :=
  mkSchemaUpdateIn 1
    [mkFieldIn (Some 1) "uid" "URL_PARAM" "id" false (Some true);
     mkFieldIn None "owner" "SCHEMA" "User" false (Some false);
     mkFieldIn (Some 1) "ignored" "BOGUS" EmptyString false None]
    "[1, 2]".

(** Field 1 is listed and marked, with a type that does not exist. *)
Definition update_in_bad_type : SchemaUpdateIn :=
  mkSchemaUpdateIn 1
    [mkFieldIn (Some 1) "name" "BOGUS" "string" false (Some true)]
    "{}".

(** No fields at all. *)
Definition update_in_empty : SchemaUpdateIn :=
  mkSchemaUpdateIn 1 [] "null".

(* ================================================================== *)
(** * Invariants and comparisons for export and import *)
(* ================================================================== *)

(** Primary keys of the relative endpoints are not repeated. *)
Definition unique_relative_endpoint_ids (db : DB) : Prop :=
  NoDup (map re_id (rows (relative_endpoints db))).

(** Every field belongs to a stored relative endpoint (the foreign key
    of [Field]). *)
Definition fields_have_owner (db : DB) : Prop :=
  forall f, In f (rows (fields db)) ->
    exists r, In r (rows (relative_endpoints db)) /\ re_id r = f_relative_endpoint_id f.

Section MetaData.
Context {json : Json}.

(** Every stored [meta_data] is JSON text. *)
Definition meta_data_parses (db : DB) : Prop :=
  forall r, In r (rows (relative_endpoints db)) -> json_loads (re_meta_data r) <> None.

(** Every stored [meta_data] is the text [json.dumps] gives for its
    value. *)
Definition meta_data_canonical (db : DB) : Prop :=
  forall r, In r (rows (relative_endpoints db)) ->
    exists j, json_loads (re_meta_data r) = Some j /\ json_dumps j = re_meta_data r.

(** A row with its [meta_data] parsed and serialized again. *)
Definition reserialized (r : RelativeEndpoint) : RelativeEndpoint :=
  match json_loads (re_meta_data r) with
  | Some j => set_meta_data (json_dumps j) r
  | None => r
  end.

(** Two rows that agree on every column, [meta_data] being compared as
    the value it parses to. *)
Definition same_endpoint (r' r : RelativeEndpoint) : Prop :=
  re_id r' = re_id r
  /\ re_base_endpoint_id r' = re_base_endpoint_id r
  /\ re_endpoint r' = re_endpoint r
  /\ re_method r' = re_method r
  /\ re_regex_endpoint r' = re_regex_endpoint r
  /\ json_loads (re_meta_data r') = json_loads (re_meta_data r).

End MetaData.

(** A stored configuration: two endpoints under one base endpoint, the
    fields of the two interleaved, a schema that refers to itself. *)
Definition db_stored : DB :=
  mkDB (mkTable [mkBaseEndpoint 1 "api"] 1)
       (mkTable [mkRelativeEndpoint 1 1 "/users" "GET" "^/users$" "{}";
                 mkRelativeEndpoint 2 1 "/users/{id}" "GET" "^/users/(?P<id>[^/]+)$" "[1]"] 2)
       (mkTable [mkField 1 2 "uid" "id" "URL_PARAM" false;
                 mkField 2 1 "page" "p" "QUERY_PARAM" false;
                 mkField 4 2 "user" "User" "SCHEMA" false] 4)
       (mkTable [mkSchema 1 "User"] 1)
       (mkTable [mkSchemaData 1 1 "name" "primitive" 0;
                 mkSchemaData 2 1 "friend" "schema" 1] 2).

(* ================================================================== *)
(** * relative_endpoint_add and relative_endpoint_delete *)
(* ================================================================== *)

(** What [relative_endpoint_add] uses of [RelativeEndpoint] beyond the
    constants above: the choices [METHODS], pairs whose first component
    is the stored value, and the value the [meta_data] column takes
    when [create] is not given one. *)
Class EndpointModel := {
  METHODS : list (string * string);
  DEFAULT_META_DATA : string
}.

(** The payload of [relative_endpoint_add]: [id] is the id of the base
    endpoint. *)
Record EndpointAddIn := mkEndpointAddIn {
  ea_id : Z;
  ea_endpoint : string;
  ea_method : string
}.

Section EndpointLifecycle.
Context {models : Models} {endpoint_model : EndpointModel}.

(** [[k[0] for k in RelativeEndpoint.METHODS]]. *)
Definition methods : list string := map fst METHODS.

Definition invalid_method_msg : string :=
  ("Please enter valid method, i.e. one of " ++ join ", " methods)%string.

Definition relative_endpoint_add (data : EndpointAddIn) : M RelativeEndpoint :=
  if negb (str_in (ea_method data) methods) then
    raise (NotAllowed invalid_method_msg)
  else
    match format_and_regex_endpoint (ea_endpoint data) with
    | inl e => raise e
    | inr (endpoint, regex_endpoint) =>
        taken <- read (fun db =>
                   exists_where (same_url (ea_id data) endpoint (ea_method data))
                     (relative_endpoints db)) ;;
        if (taken : bool) then
          raise (NotAllowed "Endpoint with same method already exists")
        else
          fun db =>
            let (r, t) :=
              create re_id
                (fun i => mkRelativeEndpoint i (ea_id data) endpoint (ea_method data)
                            regex_endpoint DEFAULT_META_DATA)
                (relative_endpoints db) in
            (set_relative_endpoints t db, inr r)
    end.

End EndpointLifecycle.

(** Modelled from the spec: the foreign key of [Field] to its endpoint
    is declared in [app/models.py], which is not in the sources; by the
    design document (4.5) deleting an endpoint removes its fields by
    ownership cascade.  [RelativeEndpoint.objects.filter(id=...).delete()]
    removes the rows with the id and, when there is one, the fields
    that point to it. *)
Definition relative_endpoint_delete (id : Z) : M unit :=
  write (fun db =>
           let hit := exists_where (fun r => re_id r =? id) (relative_endpoints db) in
           let db := if hit
                     then set_fields
                            (delete_where (fun f => f_relative_endpoint_id f =? id)
                               (fields db)) db
                     else db in
           set_relative_endpoints
             (delete_where (fun r => re_id r =? id) (relative_endpoints db)) db).

(** The key of the uniqueness test of the endpoints. *)
Definition url_key (r : RelativeEndpoint) : Z * string * string :=
  (re_base_endpoint_id r, re_endpoint r, re_method r).

(** No two relative endpoints share (base endpoint, path, method). *)
Definition unique_urls (db : DB) : Prop :=
  NoDup (map url_key (rows (relative_endpoints db))).

(** Sound primary keys of a table: no repetition, none above the
    auto-increment mark. *)
Definition keys_ok (R : Type) (pk : R -> Z) (t : Table R) : Prop :=
  NoDup (map pk (rows t)) /\ forall r, In r (rows t) -> pk r <= last_pk t.


(* ================================================================== *)
(** * The views that wrap a service ([app/views.py]) *)
(* ================================================================== *)

(** [transaction.atomic]: when the block raises, its writes are rolled
    back and the exception goes on. *)
Definition atomic (A : Type) (m : M A) : M A :=
  fun db =>
    match m db with
    | (_, inl e) => (db, inl e)
    | (db', inr a) => (db', inr a)
    end.

(** The body of the view [add_schema], under its [transaction.atomic]:
    the value of the key ['schema'] of the response. *)
Definition add_schema {models : Models} (data : SchemaIn) : M SchemaDetail :=
  atomic (schema <- schema_add data ;; ret schema).

(** How a view body ends: with the exception of the service, or with
    the [AttributeError] of an attribute its value does not have. *)
Inductive view_exn :=
| Raised (e : exn)
| AttributeError (msg : string).

(** The body of the view [add_base_endpoint]: [base_endpoint_add]
    returns the pair of [get_or_create], and the response is built from
    its attribute [id], which a pair does not have. *)
Definition add_base_endpoint (endpoint : string) : DB -> DB * (view_exn + Z) :=
  fun db =>
    match base_endpoint_add endpoint db with
    | (db', inl e) => (db', inl (Raised e))
    | (db', inr _) => (db', inl (AttributeError "'tuple' object has no attribute 'id'"))
    end.

(** Sample methods. *)
Definition sample_endpoint_model : EndpointModel := {|
  METHODS := [("GET", "GET"); ("POST", "POST"); ("PUT", "PUT");
              ("PATCH", "PATCH"); ("DELETE", "DELETE")]%string;
  DEFAULT_META_DATA := "{}"
|}.

(** Field 1 is changed; a second entry is marked as changed and has no
    id. *)
Definition update_in_no_id : SchemaUpdateIn :=
  mkSchemaUpdateIn 1
    [mkFieldIn (Some 1) "uid" "URL_PARAM" "id" false (Some true);
     mkFieldIn None "q" "QUERY_PARAM" "query" false (Some true)]
    "[3]".

(** Field 2 is listed without a marker, field 1 is changed. *)
Definition update_in_keep : SchemaUpdateIn :=
  mkSchemaUpdateIn 1
    [mkFieldIn (Some 2) "tags" "VALUE" "string" true None;
     mkFieldIn (Some 1) "uid" "URL_PARAM" "id" false (Some true)]
    "{}".

(* ================================================================== *)
(** * data_import on a payload that may lack keys *)
(* ================================================================== *)

Section ImportKeys.
Context {models : Models} {json : Json}.

(** The payload the view [import_data] hands over is the request body
    as it came: any of the four lists [data_import] reads may be
    missing.  (The list under ['fields'] is never read.) *)
Record RawSnapshot := mkRawSnapshot {
  raw_base_endpoints : option (list BaseEndpointDetail);
  raw_relative_endpoints : option (list RelativeEndpointDetail);
  raw_schema : option (list SchemaDetail);
  raw_schema_data : option (list SchemaDataDetail)
}.

(** [data_import] with the look-ups [data[...]] written out: each one
    raises [KeyError] where the source reads the key, after the writes
    that come before it. *)
Definition data_import_keys (data : RawSnapshot) : M unit :=
  write delete_everything ;;;
  match raw_base_endpoints data with
  | None => raise (KeyError "base_endpoints")
  | Some base =>
      write (fun db =>
               set_base_endpoints
                 (bulk_create_keyed be_id (map import_base_endpoint base)
                    (base_endpoints db)) db) ;;;
      match raw_relative_endpoints data with
      | None => raise (KeyError "relative_endpoints")
      | Some relative =>
          let (new_endpoints, new_fields) := import_relative_endpoints relative [] [] in
          write (fun db =>
                   set_relative_endpoints
                     (bulk_create_keyed re_id new_endpoints (relative_endpoints db)) db) ;;;
          write (fun db =>
                   set_fields (bulk_create_keyed f_id new_fields (fields db)) db) ;;;
          match raw_schema data with
          | None => raise (KeyError "schema")
          | Some schema =>
              write (fun db =>
                       set_schemas
                         (bulk_create_keyed s_id (map import_schema schema) (schemas db))
                         db) ;;;
              match raw_schema_data data with
              | None => raise (KeyError "schema_data")
              | Some schema_data =>
                  write (fun db =>
                           set_schema_datas
                             (bulk_create_keyed sd_id
                                (map import_schema_data schema_data)
                                (schema_datas db)) db)
              end
          end
      end
  end.

(** The payload that has all the keys of a snapshot. *)
Definition raw_of (data : Snapshot) : RawSnapshot :=
  mkRawSnapshot (Some (snap_base_endpoints data)) (Some (snap_relative_endpoints data))
    (Some (snap_schema data)) (Some (snap_schema_data data)).

End ImportKeys.

(* ================================================================== *)
(** * [json] on arrays of integers *)
(* ================================================================== *)

(** Where the reader of a JSON text stands. *)
Inductive scan_state :=
| ExpectOpen
| ExpectItemOrClose
| ExpectItem
| AfterMinus
| InNumber (negative : bool) (n : Z)
| AfterItem
| Closed.

Definition is_ws (c : ascii) : bool :=
  Ascii.eqb c " "%char || Ascii.eqb c "009"%char
  || Ascii.eqb c "010"%char || Ascii.eqb c "013"%char.

Definition digit_of (c : ascii) : option Z :=
  let n := Z.of_nat (nat_of_ascii c) in
  if (48 <=? n) && (n <=? 57) then Some (n - 48) else None.

Definition signed (negative : bool) (n : Z) : Z := if negative then - n else n.

(** One pass over the text: white space is allowed around the items, a
    number has no leading zero, nothing but white space follows the
    closing bracket. *)
Fixpoint scan (st : scan_state) (items : list Z) (s : string) : option (list Z) :=
  match s with
  | EmptyString =>
      match st with
      | Closed => Some items
      | _ => None
      end
  | String c rest =>
      let start_number :=
        if Ascii.eqb c "-"%char then scan AfterMinus items rest
        else match digit_of c with
             | Some d => scan (InNumber false d) items rest
             | None => None
             end in
      let after_number (items' : list Z) :=
        if is_ws c then scan AfterItem items' rest
        else if Ascii.eqb c ","%char then scan ExpectItem items' rest
        else if Ascii.eqb c "]"%char then scan Closed items' rest
        else None in
      match st with
      | ExpectOpen =>
          if is_ws c then scan ExpectOpen items rest
          else if Ascii.eqb c "["%char then scan ExpectItemOrClose items rest
          else None
      | ExpectItemOrClose =>
          if is_ws c then scan ExpectItemOrClose items rest
          else if Ascii.eqb c "]"%char then scan Closed items rest
          else start_number
      | ExpectItem =>
          if is_ws c then scan ExpectItem items rest else start_number
      | AfterMinus =>
          match digit_of c with
          | Some d => scan (InNumber true d) items rest
          | None => None
          end
      | InNumber negative n =>
          match digit_of c with
          | Some d => if n =? 0 then None
                      else scan (InNumber negative (10 * n + d)) items rest
          | None => after_number (items ++ [signed negative n])
          end
      | AfterItem => after_number items
      | Closed => if is_ws c then scan Closed items rest else None
      end
  end.

(** The part of [json] that deals with arrays of integers.  On a text
    that is such an array [json_loads] gives the items, as
    [json.loads] does, and [json_dumps] writes them as [json.dumps]
    does, separated by a comma and a space.  Every other text is
    refused here; of those only texts that are no JSON at all are
    used below. *)
Definition json_int_arrays : Json := {|
  J := list Z;
  json_loads := fun s => scan ExpectOpen [] s;
  json_dumps := fun items =>
    ("[" ++ join ", " (map (fun n => NilZero.string_of_int (Z.to_int n)) items) ++ "]")%string
|}.

(** Two endpoints whose [meta_data] are arrays as [json.dumps] writes
    them; the fields of the two are interleaved. *)
Definition db_arrays : DB :=
  mkDB (mkTable [mkBaseEndpoint 1 "api"] 1)
       (mkTable [mkRelativeEndpoint 1 1 "/users" "GET" "^/users$" "[]";
                 mkRelativeEndpoint 2 1 "/users/{id}" "GET" "^/users/(?P<id>[^/]+)$" "[1]"] 2)
       (mkTable [mkField 1 2 "uid" "id" "URL_PARAM" false;
                 mkField 2 1 "page" "p" "QUERY_PARAM" false;
                 mkField 4 2 "user" "User" "SCHEMA" false] 4)
       (mkTable [mkSchema 1 "User"] 1)
       (empty_table _).

(** Requests that keep field 2 of endpoint 1 and set its [meta_data]:
    to a JSON array written without a space, and to a text that is no
    JSON. *)
Definition update_in_compact_meta : SchemaUpdateIn :=
  mkSchemaUpdateIn 1 [mkFieldIn (Some 2) "page" "QUERY_PARAM" "p" false None] "[1,2]".

Definition update_in_no_json_meta : SchemaUpdateIn :=
  mkSchemaUpdateIn 1 [mkFieldIn (Some 2) "page" "QUERY_PARAM" "p" false None] "oops".

(* ================================================================== *)
(** * Snapshots the database accepts *)
(* ================================================================== *)

Section ConsistentSnapshot.
Context {json : Json}.

(** The key of the uniqueness test, on a view. *)
Definition detail_url_key (d : RelativeEndpointDetail) : Z * string * string :=
  (red_base_endpoint d, red_endpoint d, red_method d).

(** What rules out an [IntegrityError] while a snapshot is imported:
    in each list the ids are distinct (for the fields, over all the
    embedded lists together), the columns that are unique by the design
    document (base endpoint string, schema name, the triple of a
    relative endpoint) are not repeated, and the owners referred to are
    listed. *)
Definition snapshot_consistent (data : Snapshot) : Prop :=
  NoDup (map bed_id (snap_base_endpoints data))
  /\ NoDup (map bed_endpoint (snap_base_endpoints data))
  /\ NoDup (map red_id (snap_relative_endpoints data))
  /\ NoDup (map detail_url_key (snap_relative_endpoints data))
  /\ (forall d, In d (snap_relative_endpoints data) ->
        In (red_base_endpoint d) (map bed_id (snap_base_endpoints data)))
  /\ NoDup (map fd_id (flat_map red_fields (snap_relative_endpoints data)))
  /\ NoDup (map sdt_id (snap_schema data))
  /\ NoDup (map sdt_name (snap_schema data))
  /\ NoDup (map sdd_id (snap_schema_data data))
  /\ (forall d, In d (snap_schema_data data) ->
        In (sdd_schema d) (map sdt_id (snap_schema data))).

End ConsistentSnapshot.

(** A snapshot of one endpoint with one field and one schema. *)
Definition snapshot_small : Snapshot (json := sample_json) :=
  mkSnapshot (json := sample_json)
    [mkBaseEndpointDetail 1 "api"]
    [mkRelativeEndpointDetail (json := sample_json) 7 1 "/users" "GET" "^/users$"
       "{}"%string []
       [mkFieldDetail 3 "page" "p" "QUERY_PARAM" false]]
    [mkSchemaDetail 1 "User" []]
    []
    [mkSchemaDataDetail 1 1 "name" "primitive" 0].

(* ================================================================== *)
(** * Lemmas on the query-set operations *)
(* ================================================================== *)

Lemma filter_none (R : Type) (p : R -> bool) (l : list R) :
  existsb p l = false -> filter p l = [].
Proof.
  induction l as [|x l IH]; simpl; [reflexivity|].
  intros H. apply orb_false_iff in H. destruct H as [Hx Hl].
  rewrite Hx. auto.
Qed.

(** A key with no repetition selects at most one row. *)
Lemma filter_unique_key (R : Type) (key : R -> string) (e : string) (l : list R) :
  NoDup (map key l) ->
  filter (fun r => String.eqb (key r) e) l = []
  \/ exists r, filter (fun r => String.eqb (key r) e) l = [r] /\ In r l /\ key r = e.
Proof.
  induction l as [|x l IH]; simpl; intros Hnd; [left; reflexivity|].
  inversion Hnd as [|? ? Hnotin Hnd']; subst.
  destruct (String.eqb_spec (key x) e) as [Heq|Hne].
  - right. exists x. split; [|split; auto].
    f_equal. apply filter_none.
    apply not_true_is_false. intros Hex.
    apply existsb_exists in Hex. destruct Hex as [y [Hy Hk]].
    apply String.eqb_eq in Hk. apply Hnotin.
    rewrite Heq, <- Hk. now apply in_map.
  - destruct (IH Hnd') as [Hnil|[r [Hr [Hin Hk]]]]; [left; assumption|].
    right. exists r. repeat split; auto.
Qed.

Lemma orm_get_found (R : Type) (p : R -> bool) (t : Table R) (r : R) :
  filter p (rows t) = [r] -> orm_get p t = inr r.
Proof. unfold orm_get. now intros ->. Qed.

Lemma orm_get_missing (R : Type) (p : R -> bool) (t : Table R) :
  filter p (rows t) = [] -> orm_get p t = inl DoesNotExist.
Proof. unfold orm_get. now intros ->. Qed.

(** A row [orm_get] returns is in the table and satisfies the filter. *)
Lemma orm_get_inr (R : Type) (p : R -> bool) (t : Table R) (r : R) :
  orm_get p t = inr r -> filter p (rows t) = [r] /\ In r (rows t) /\ p r = true.
Proof.
  unfold orm_get. intros H.
  destruct (filter p (rows t)) as [|x [|y l]] eqn:E; try discriminate.
  injection H as ->. split; [reflexivity|].
  apply filter_In. rewrite E. now left.
Qed.

Lemma startswith_slash_cons (s : string) :
  startswith_slash (String "/" s) = true.
Proof. reflexivity. Qed.

(** After a first [get_or_create] the row is found again, unchanged. *)
Lemma base_endpoint_get_or_create_twice (e : string) (db : DB) :
  unique_endpoints db ->
  exists r created db1,
    base_endpoint_get_or_create e db = (db1, inr (r, created))
    /\ base_endpoint_get_or_create e db1 = (db1, inr (r, false))
    /\ be_endpoint r = e
    /\ unique_endpoints db1.
Proof.
  intros Hu. unfold base_endpoint_get_or_create.
  destruct (filter_unique_key be_endpoint e (rows (base_endpoints db)) Hu)
    as [Hnil|[r [Hr [Hin Hk]]]].
  - rewrite (orm_get_missing _ _ Hnil). simpl.
    set (r := mkBaseEndpoint (next_pk be_id (base_endpoints db)) e).
    exists r, true. eexists. split; [reflexivity|].
    assert (Hf : filter (fun r0 => String.eqb (be_endpoint r0) e)
                   (rows (base_endpoints db) ++ [r]) = [r]).
    { rewrite filter_app, Hnil. simpl. now rewrite String.eqb_refl. }
    simpl. unfold orm_get. simpl. rewrite Hf.
    repeat split; auto.
    unfold unique_endpoints. simpl. rewrite map_app. simpl.
    apply NoDup_app_remove_l with (l := []). simpl.
    apply Permutation_NoDup with (l := e :: map be_endpoint (rows (base_endpoints db))).
    + apply Permutation_cons_append.
    + constructor; auto. intros Hin.
      apply in_map_iff in Hin. destruct Hin as [x [Hx Hxin]].
      assert (Hin' : In x (filter (fun r0 => String.eqb (be_endpoint r0) e)
                             (rows (base_endpoints db)))).
      { apply filter_In. split; auto. now apply String.eqb_eq. }
      now rewrite Hnil in Hin'.
  - rewrite (orm_get_found _ _ Hr).
    exists r, false, db. rewrite (orm_get_found _ _ Hr). auto.
Qed.

(* ================================================================== *)
(** * base_endpoint_add: get-or-create *)
(* ================================================================== *)

(** C8 (as the code has it).  On a table whose [endpoint] column has no
    repetition, [base_endpoint_add] never raises and is idempotent for
    every endpoint string: a second call returns the row of the first
    call (now with [created = False]) and leaves the database as the
    first call left it.  For a string that does not itself begin with
    a slash, the call with one slash put in front does the same as the
    call without it: same row, same database, before and after. *)
Theorem base_endpoint_add_idempotent (endpoint : string) (db : DB) :
  unique_endpoints db ->
  exists r created db1,
    base_endpoint_add endpoint db = (db1, inr (r, created))
    /\ base_endpoint_add endpoint db1 = (db1, inr (r, false))
    /\ (startswith_slash endpoint = false ->
        be_endpoint r = endpoint
        /\ base_endpoint_add (String "/" endpoint) db = (db1, inr (r, created))
        /\ base_endpoint_add (String "/" endpoint) db1 = (db1, inr (r, false))).
Proof.
  intros Hu. unfold base_endpoint_add.
  rewrite startswith_slash_cons. simpl drop_first.
  destruct (startswith_slash endpoint) eqn:Hs.
  - destruct (base_endpoint_get_or_create_twice (drop_first endpoint) Hu)
      as [r [c [db1 [H1 [H2 _]]]]].
    exists r, c, db1. repeat split; auto; discriminate.
  - destruct (base_endpoint_get_or_create_twice endpoint Hu)
      as [r [c [db1 [H1 [H2 [Hk _]]]]]].
    exists r, c, db1. repeat split; auto.
Qed.

Lemma base_endpoint_add_idempotent_witness :
  unique_endpoints empty_db
  /\ exists r created db1,
       base_endpoint_add "api" empty_db = (db1, inr (r, created))
       /\ base_endpoint_add "api" db1 = (db1, inr (r, false))
       /\ (startswith_slash "api" = false ->
           be_endpoint r = "api"%string
           /\ base_endpoint_add "/api" empty_db = (db1, inr (r, created))
           /\ base_endpoint_add "/api" db1 = (db1, inr (r, false))).
Proof.
  split.
  - constructor.
  - apply (@base_endpoint_add_idempotent "api" empty_db). constructor.
Defined.

(** C8 (as stated) fails on a string that begins with a slash itself:
    only one slash is taken off, so ["//a"] is stored as ["/a"] and
    ["/a"] as ["a"], two different rows. *)
Lemma base_endpoint_add_two_slashes :
  let db1 := set_base_endpoints (mkTable [mkBaseEndpoint 1 "/a"] 1) empty_db in
  let db2 := set_base_endpoints
               (mkTable [mkBaseEndpoint 1 "/a"; mkBaseEndpoint 2 "a"] 2) empty_db in
  unique_endpoints empty_db
  /\ base_endpoint_add "//a" empty_db = (db1, inr (mkBaseEndpoint 1 "/a", true))
  /\ base_endpoint_add "/a" db1 = (db2, inr (mkBaseEndpoint 2 "a", true))
  /\ base_endpoint_add "/a" empty_db
     = (set_base_endpoints (mkTable [mkBaseEndpoint 1 "a"] 1) empty_db,
        inr (mkBaseEndpoint 1 "a", true))
  /\ mkBaseEndpoint 1 "/a" <> mkBaseEndpoint 2 "a"
  /\ mkBaseEndpoint 1 "/a" <> mkBaseEndpoint 1 "a".
Proof.
  cbv zeta. repeat split; try reflexivity; try discriminate. constructor.
Qed.

(* ================================================================== *)
(** * relative_endpoint_update *)
(* ================================================================== *)

Section RelativeEndpointUpdate.
Context {models : Models}.

Lemma same_url_true (b : Z) (endpoint method : string) (r : RelativeEndpoint) :
  same_url b endpoint method r = true
  <-> re_base_endpoint_id r = b /\ re_endpoint r = endpoint /\ re_method r = method.
Proof.
  unfold same_url. rewrite !andb_true_iff, Z.eqb_eq, !String.eqb_eq. tauto.
Qed.

(** C4 (as the code has it).  When the endpoint exists and its new path
    normalizes, [relative_endpoint_update] raises [NotAllowed] exactly
    when some row of the table, the updated row included, already has
    the new (base endpoint, normalized path, method), and then writes
    nothing; in particular an update that keeps path and method is
    rejected.  Otherwise it overwrites endpoint, method and
    regex_endpoint of the row with the given id and changes nothing
    else: the fields, and every other table, are untouched. *)
Theorem relative_endpoint_update_collision (data : EndpointUpdateIn) (db : DB)
    (r : RelativeEndpoint) (endpoint regex_endpoint : string) :
  orm_get (fun x => re_id x =? eu_id data) (relative_endpoints db) = inr r ->
  format_and_regex_endpoint (eu_endpoint data) = inr (endpoint, regex_endpoint) ->
  let collides :=
    exists x, In x (rows (relative_endpoints db))
              /\ re_base_endpoint_id x = re_base_endpoint_id r
              /\ re_endpoint x = endpoint
              /\ re_method x = eu_method data in
  (collides ->
     relative_endpoint_update data db
     = (db, inl (NotAllowed "Endpoint with same url exists")))
  /\ (re_endpoint r = endpoint -> re_method r = eu_method data -> collides)
  /\ (~ collides ->
      exists db',
        relative_endpoint_update data db = (db', inr tt)
        /\ rows (relative_endpoints db')
           = map (fun x => if re_id x =? eu_id data
                           then mkRelativeEndpoint (re_id x) (re_base_endpoint_id x)
                                  endpoint (eu_method data) regex_endpoint (re_meta_data x)
                           else x)
               (rows (relative_endpoints db))
        /\ fields db' = fields db
        /\ base_endpoints db' = base_endpoints db
        /\ schemas db' = schemas db
        /\ schema_datas db' = schema_datas db).
Proof.
  intros Hget Hfmt collides.
  assert (Hex : exists_where
                  (same_url (re_base_endpoint_id r) endpoint (eu_method data))
                  (relative_endpoints db) = true <-> collides).
  { unfold exists_where, collides. rewrite existsb_exists.
    split; intros [x [Hin Hx]]; exists x; split; auto; now apply same_url_true. }
  unfold relative_endpoint_update, bind, lift, read.
  rewrite Hget, Hfmt.
  split; [|split].
  - intros Hc. apply Hex in Hc. now rewrite Hc.
  - intros He Hm. exists r. destruct (orm_get_inr _ _ Hget) as [_ [Hin _]]. auto.
  - intros Hn.
    destruct (exists_where _ (relative_endpoints db)) eqn:E.
    + exfalso. apply Hn, Hex. reflexivity.
    + eexists. split; [reflexivity|]. simpl. repeat split.
Qed.

End RelativeEndpointUpdate.

Lemma relative_endpoint_update_collision_witness :
  let data := mkEndpointUpdateIn 1 "users/{id}" "GET" in
  exists db',
    relative_endpoint_update (models := sample_models) data db_one_endpoint = (db', inr tt)
    /\ rows (relative_endpoints db')
       = [mkRelativeEndpoint 1 1 "/users/{id}" "GET" "^/users/{id}$" "{}"].
Proof.
  cbv zeta.
  destruct (@relative_endpoint_update_collision sample_models
              (mkEndpointUpdateIn 1 "users/{id}" "GET") db_one_endpoint
              (mkRelativeEndpoint 1 1 "/users" "GET" "^/users$" "{}")
              "/users/{id}" "^/users/{id}$" eq_refl eq_refl) as [_ [_ H]].
  destruct H as [db' [Hrun [Hrows _]]].
  - intros [x [Hin [_ [Hp _]]]]. simpl in Hin.
    destruct Hin as [<-|[]]. discriminate.
  - exists db'. split; [exact Hrun|exact Hrows].
Defined.

(** C4 (as stated) fails: an update that sends the endpoint's own path
    and method is rejected although no other row has them. *)
Lemma relative_endpoint_update_rejects_itself :
  let data := mkEndpointUpdateIn 1 "users" "GET" in
  relative_endpoint_update (models := sample_models) data db_one_endpoint
  = (db_one_endpoint, inl (NotAllowed "Endpoint with same url exists"))
  /\ ~ (exists x, In x (rows (relative_endpoints db_one_endpoint))
                  /\ re_id x <> eu_id data
                  /\ re_base_endpoint_id x = 1
                  /\ re_endpoint x = "/users"%string
                  /\ re_method x = "GET"%string).
Proof.
  cbv zeta. split; [reflexivity|].
  intros [x [Hin [Hid _]]]. simpl in Hin.
  destruct Hin as [<-|[]]. apply Hid. reflexivity.
Qed.

(* ================================================================== *)
(** * schema_add *)
(* ================================================================== *)

Lemma index_none (v : string) (l : list string) :
  index v l = None <-> str_in v l = false.
Proof.
  unfold str_in. induction l as [|x l IH]; simpl; [tauto|].
  rewrite (String.eqb_sym v x).
  destruct (String.eqb x v); simpl.
  - split; discriminate.
  - rewrite <- IH. destruct (index v l); split; congruence.
Qed.

Lemma find_none_filter (R : Type) (p : R -> bool) (l : list R) :
  find p l = None <-> filter p l = [].
Proof.
  induction l as [|x l IH]; simpl; [tauto|].
  destruct (p x); [split; discriminate|exact IH].
Qed.

Lemma find_filter_single (R : Type) (p : R -> bool) (l : list R) (r : R) :
  filter p l = [r] -> find p l = Some r.
Proof.
  induction l as [|x l IH]; simpl; [discriminate|].
  destruct (p x); [congruence|exact IH].
Qed.

Lemma find_app_some (R : Type) (p : R -> bool) (l l' : list R) (r : R) :
  find p l = Some r -> find p (l ++ l') = Some r.
Proof.
  induction l as [|x l IH]; simpl; [discriminate|].
  destruct (p x); auto.
Qed.

Lemma name_free_exists (name : string) (db : DB) :
  name_free name db ->
  exists_where (fun r => String.eqb (s_name r) name) (schemas db) = false.
Proof.
  intros Hfree. unfold exists_where. apply not_true_is_false. intros H.
  apply existsb_exists in H. destruct H as [s [Hin Hs]].
  apply String.eqb_eq in Hs. exact (Hfree s Hin Hs).
Qed.

Lemma with_created_schema_unique (name : string) (db : DB) :
  name_free name db -> unique_schema_names db ->
  unique_schema_names (with_created_schema name db).
Proof.
  unfold unique_schema_names. intros Hfree Hu. simpl. rewrite map_app. simpl.
  apply Permutation_NoDup with (l := name :: map s_name (rows (schemas db))).
  - apply Permutation_cons_append.
  - constructor; auto. intros Hin. apply in_map_iff in Hin.
    destruct Hin as [s [Hs Hin]]. exact (Hfree s Hin Hs).
Qed.

Section SchemaAdd.
Context {models : Models}.

(** The loop only reads the database. *)
Lemma schema_add_field_reads (schema : Schema) (field : SchemaFieldIn) (db : DB) :
  fst (schema_add_field schema field db) = db.
Proof.
  unfold schema_add_field, bind, lift, ret, raise.
  destruct (String.eqb (sfi_type field) "schema").
  - destruct (orm_get _ (schemas db)); reflexivity.
  - destruct (negb (str_in (sfi_value field) CHOICES)); [reflexivity|].
    destruct (index (sfi_value field) CHOICES); reflexivity.
Qed.

Lemma schema_add_loop_reads (schema : Schema) (fs : list SchemaFieldIn) :
  forall pending db, fst (schema_add_loop schema fs pending db) = db.
Proof.
  induction fs as [|f fs IH]; intros pending db; simpl; [reflexivity|].
  unfold bind. pose proof (schema_add_field_reads schema f db) as Hf.
  destruct (schema_add_field schema f db) as [db' [e|sd]]; simpl in Hf; subst db'.
  - reflexivity.
  - apply IH.
Qed.

(** A field the design document's resolution rejects makes the loop
    body raise. *)
Lemma schema_add_field_fails (schema : Schema) (field : SchemaFieldIn) (db : DB) :
  spec_resolve db field = None ->
  exists e, schema_add_field schema field db = (db, inl e).
Proof.
  unfold spec_resolve, schema_add_field, bind, lift, ret, raise.
  destruct (String.eqb (sfi_type field) "schema").
  - intros H.
    destruct (find _ (rows (schemas db))) eqn:E; [discriminate|].
    apply find_none_filter in E.
    rewrite (orm_get_missing _ _ E). eauto.
  - intros H. apply index_none in H. rewrite H. simpl. eauto.
Qed.

(** On unique names, a field the design document's resolution accepts
    gives the row the design document describes. *)
Lemma schema_add_field_resolves (schema : Schema) (field : SchemaFieldIn) (db : DB) :
  unique_schema_names db ->
  spec_resolve db field <> None ->
  schema_add_field schema field db = (db, inr (spec_schema_data db schema field)).
Proof.
  unfold spec_schema_data, spec_resolve, schema_add_field, bind, lift, ret, raise.
  intros Hu.
  destruct (String.eqb (sfi_type field) "schema").
  - destruct (filter_unique_key s_name (sfi_value field) (rows (schemas db)) Hu)
      as [Hnil|[r [Hr _]]].
    + apply find_none_filter in Hnil. rewrite Hnil. simpl. congruence.
    + rewrite (find_filter_single _ _ Hr), (orm_get_found _ _ Hr). reflexivity.
  - destruct (index (sfi_value field) CHOICES) as [n|] eqn:E; [|congruence].
    intros _.
    assert (Hin : str_in (sfi_value field) CHOICES = true).
    { destruct (str_in (sfi_value field) CHOICES) eqn:E'; [reflexivity|].
      apply index_none in E'. congruence. }
    rewrite Hin. reflexivity.
Qed.

Lemma schema_add_loop_fails (schema : Schema) (db : DB) (fs : list SchemaFieldIn) :
  (exists f, In f fs /\ spec_resolve db f = None) ->
  forall pending, exists e, schema_add_loop schema fs pending db = (db, inl e).
Proof.
  induction fs as [|f fs IH]; intros [g [Hin Hg]] pending; [destruct Hin|].
  simpl. unfold bind.
  pose proof (schema_add_field_reads schema f db) as Hf.
  destruct (schema_add_field schema f db) as [db' [e|sd]] eqn:E;
    simpl in Hf; subst db'.
  - eauto.
  - destruct Hin as [->|Hin].
    + destruct (schema_add_field_fails schema g db Hg) as [e He]. congruence.
    + apply IH. eauto.
Qed.

Lemma schema_add_loop_resolves (schema : Schema) (db : DB) (fs : list SchemaFieldIn) :
  unique_schema_names db ->
  (forall f, In f fs -> spec_resolve db f <> None) ->
  forall pending,
    schema_add_loop schema fs pending db
    = (db, inr (pending ++ map (spec_schema_data db schema) fs)).
Proof.
  intros Hu. induction fs as [|f fs IH]; intros Hall pending; simpl.
  - now rewrite app_nil_r.
  - unfold bind. rewrite schema_add_field_resolves; auto; [|apply Hall; now left].
    rewrite IH; [|intros g Hg; apply Hall; now right].
    now rewrite <- app_assoc.
Qed.

(** The run of [schema_add] up to the loop. *)
Lemma schema_add_unfold (data : SchemaIn) (db : DB) :
  name_free (si_name data) db ->
  schema_add data db
  = match schema_add_loop (created_schema (si_name data) db) (si_fields data) []
            (with_created_schema (si_name data) db) with
    | (db', inl e) => (db', inl e)
    | (db', inr pending) =>
        (set_schema_datas (bulk_create sd_id pending (schema_datas db')) db',
         inr (schema_detail
                (set_schema_datas (bulk_create sd_id pending (schema_datas db')) db')
                (created_schema (si_name data) db)))
    end.
Proof.
  intros Hfree. unfold schema_add, bind, read at 1.
  rewrite (name_free_exists Hfree).
  unfold schema_create, create. simpl.
  fold (created_schema (si_name data) db).
  change (set_schemas _ db) with (with_created_schema (si_name data) db).
  destruct (schema_add_loop _ _ _ _) as [db' [e|pending]]; reflexivity.
Qed.

End SchemaAdd.

(* ---------------------------------------------------------------- *)
(** ** Keys handed out by [bulk_create] *)
(* ---------------------------------------------------------------- *)

Lemma max_pk_app (l : list Z) (i : Z) :
  max_pk (l ++ [i]) = Z.max (max_pk l) i.
Proof.
  unfold max_pk. induction l as [|x l IH]; simpl; [lia|]. rewrite IH. lia.
Qed.

Lemma max_pk_nonneg (l : list Z) : 0 <= max_pk l.
Proof. unfold max_pk. induction l as [|x l IH]; simpl; lia. Qed.

Lemma max_pk_ge (l : list Z) (i : Z) : In i l -> i <= max_pk l.
Proof.
  unfold max_pk. induction l as [|x l IH]; simpl; [tauto|].
  intros [->|H]; [lia|]. specialize (IH H). lia.
Qed.

Lemma next_pk_after_create (R : Type) (pk : R -> Z) (mk : Z -> R) (t : Table R) :
  (forall i, pk (mk i) = i) ->
  next_pk pk (snd (create pk mk t)) = next_pk pk t + 1.
Proof.
  intros Hpk. unfold create. simpl. unfold next_pk at 1. simpl.
  rewrite map_app. simpl. rewrite Hpk, max_pk_app. unfold next_pk. lia.
Qed.

(** [bulk_create] appends the objects, keyed consecutively from the
    next free key. *)
Lemma bulk_create_rows (R : Type) (pk : R -> Z) (mks : list (Z -> R)) :
  (forall mk i, In mk mks -> pk (mk i) = i) ->
  forall t, rows (bulk_create pk mks t) = rows t ++ keyed_from (next_pk pk t) mks.
Proof.
  induction mks as [|mk mks IH]; intros Hpk t.
  - simpl. now rewrite app_nil_r.
  - cbn [bulk_create keyed_from].
    rewrite IH by (intros; apply Hpk; now right).
    rewrite next_pk_after_create by (intros; apply Hpk; now left).
    unfold create. cbn [snd rows]. now rewrite <- app_assoc.
Qed.

Lemma keyed_from_in (A R : Type) (g : A -> Z -> R) (l : list A) (a : A) :
  In a l -> forall i, exists k, In (g a k) (keyed_from i (map g l)) /\ i <= k.
Proof.
  induction l as [|x l IH]; intros Hin i; [destruct Hin|].
  destruct Hin as [->|Hin]; simpl.
  - exists i. split; [now left|lia].
  - destruct (IH Hin (i + 1)) as [k [Hk Hle]]. exists k. split; [now right|lia].
Qed.

(** The next key is above every key in the table. *)
Lemma next_pk_fresh (R : Type) (pk : R -> Z) (t : Table R) (r : R) :
  In r (rows t) -> pk r < next_pk pk t.
Proof.
  intros Hin. unfold next_pk.
  assert (pk r <= max_pk (map pk (rows t))) by (apply max_pk_ge; now apply in_map).
  lia.
Qed.

(* ---------------------------------------------------------------- *)
(** ** The two outcomes of [schema_add] *)
(* ---------------------------------------------------------------- *)

Lemma find_app_none (R : Type) (p : R -> bool) (l l' : list R) :
  find p l = None -> find p (l ++ l') = find p l'.
Proof.
  induction l as [|x l IH]; simpl; [reflexivity|].
  destruct (p x); [discriminate|exact IH].
Qed.

Lemma find_none_forall (R : Type) (p : R -> bool) (l : list R) :
  find p l = None <-> forall r, In r l -> p r = false.
Proof.
  split.
  - intros H r Hin. exact (find_none p l H r Hin).
  - induction l as [|x l IH]; simpl; intros H; [reflexivity|].
    rewrite (H x) by now left. apply IH. intros r Hr. apply H. now right.
Qed.

Section SchemaAddOutcomes.
Context {models : Models}.

Lemma str_in_true (v : string) (l : list string) : str_in v l = true <-> In v l.
Proof.
  unfold str_in. rewrite existsb_exists. split.
  - intros [x [Hin Hx]]. apply String.eqb_eq in Hx. now subst.
  - intros Hin. exists v. split; [assumption|apply String.eqb_refl].
Qed.

(** The design document's resolution fails exactly on the fields the
    claim calls invalid. *)
Lemma spec_resolve_none (db : DB) (field : SchemaFieldIn) :
  spec_resolve db field = None <-> field_invalid db field.
Proof.
  unfold spec_resolve, field_invalid.
  destruct (String.eqb_spec (sfi_type field) "schema") as [Ht|Ht].
  - split.
    + intros H. left. split; [assumption|].
      destruct (find _ (rows (schemas db))) eqn:E; [discriminate|].
      intros s Hin Hs. rewrite find_none_forall in E.
      specialize (E s Hin). apply String.eqb_neq in E. contradiction.
    + intros [[_ H]|[H _]]; [|contradiction].
      assert (E : find (fun r => String.eqb (s_name r) (sfi_value field))
                    (rows (schemas db)) = None).
      { apply find_none_forall. intros r Hin. apply String.eqb_neq. now apply H. }
      now rewrite E.
  - rewrite index_none. split.
    + intros H. right. split; [assumption|].
      rewrite <- str_in_true. congruence.
    + intros [[H _]|[_ H]]; [contradiction|].
      apply not_true_is_false. now rewrite str_in_true.
Qed.

(** The schema being created resolves by its own name once its row is
    there. *)
Lemma spec_resolve_own_name (name : string) (db : DB) (field : SchemaFieldIn) :
  name_free name db ->
  sfi_type field = "schema"%string -> sfi_value field = name ->
  spec_resolve (with_created_schema name db) field = Some (s_id (created_schema name db)).
Proof.
  intros Hfree Ht Hv. unfold spec_resolve. rewrite Ht. simpl.
  rewrite find_app_none.
  - simpl. rewrite Hv, String.eqb_refl. reflexivity.
  - apply find_none_forall. intros r Hin. apply String.eqb_neq.
    rewrite Hv. now apply Hfree.
Qed.

(** What resolved before the creation resolves to the same value after. *)
Lemma spec_resolve_kept (name : string) (db : DB) (field : SchemaFieldIn) :
  spec_resolve db field <> None ->
  spec_resolve (with_created_schema name db) field = spec_resolve db field.
Proof.
  unfold spec_resolve. destruct (String.eqb (sfi_type field) "schema"); [|reflexivity].
  simpl. destruct (find _ (rows (schemas db))) eqn:E; [|simpl; congruence].
  intros _. now rewrite (find_app_some _ _ _ E).
Qed.

End SchemaAddOutcomes.

Section SchemaAddClaims.
Context {models : Models}.

(** C5.  For an input whose name is not taken yet, the [Schema] row is
    created first.  If some field of the list is invalid then (type
    "schema" naming no schema, or a value that is no primitive type
    name), [schema_add] raises and the database it leaves is the one
    right after that creation: the new [Schema] row is there and the
    [SchemaData] table is as it was, so no [SchemaData] row was
    written.  If every field is valid (on unique schema names), the
    call returns and the [SchemaData] table is the old one extended by
    one [bulk_create] of the rows of the whole list, in order. *)
Theorem schema_add_all_or_nothing (data : SchemaIn) (db : DB) :
  name_free (si_name data) db ->
  let schema := created_schema (si_name data) db in
  let db1 := with_created_schema (si_name data) db in
  rows (schemas db1) = rows (schemas db) ++ [schema]
  /\ schema_datas db1 = schema_datas db
  /\ ((exists f, In f (si_fields data) /\ field_invalid db1 f) ->
      exists e, schema_add data db = (db1, inl e))
  /\ (unique_schema_names db ->
      (forall f, In f (si_fields data) -> ~ field_invalid db1 f) ->
      exists db2 detail,
        schema_add data db = (db2, inr detail)
        /\ schemas db2 = schemas db1
        /\ schema_datas db2
           = bulk_create sd_id (map (spec_schema_data db1 schema) (si_fields data))
               (schema_datas db)).
Proof.
  intros Hfree schema db1.
  split; [reflexivity|]. split; [reflexivity|]. split.
  - intros [f [Hin Hbad]]. rewrite (schema_add_unfold data Hfree).
    fold schema db1.
    assert (Hex : exists g, In g (si_fields data) /\ spec_resolve db1 g = None).
    { exists f. split; [assumption|]. now apply spec_resolve_none. }
    destruct (@schema_add_loop_fails models schema db1 (si_fields data) Hex [])
      as [e He].
    rewrite He. eauto.
  - intros Hu Hall. rewrite (schema_add_unfold data Hfree).
    fold schema db1.
    rewrite schema_add_loop_resolves.
    + simpl. eexists. eexists. split; [reflexivity|]. split; reflexivity.
    + now apply with_created_schema_unique.
    + intros f Hin H. apply (Hall f Hin). now apply spec_resolve_none.
Qed.

(** C9.  For a name that is not taken yet (on unique schema names), let
    every field of the list either be of type "schema" with the new
    name as its value, or resolve against the schemas that existed
    before the call.  Then [schema_add] returns, the new [Schema] row
    is stored, and every field of the first kind is stored as a
    [SchemaData] row of the new schema whose value is the new schema's
    own id. *)
Theorem schema_add_self_reference (data : SchemaIn) (db : DB) :
  name_free (si_name data) db ->
  unique_schema_names db ->
  (forall f, In f (si_fields data) ->
     (sfi_type f = "schema"%string /\ sfi_value f = si_name data)
     \/ spec_resolve db f <> None) ->
  let schema := created_schema (si_name data) db in
  exists db2 detail,
    schema_add data db = (db2, inr detail)
    /\ In schema (rows (schemas db2))
    /\ forall f, In f (si_fields data) ->
         sfi_type f = "schema"%string -> sfi_value f = si_name data ->
         exists i,
           In (mkSchemaData i (s_id schema) (sfi_key f) "schema" (s_id schema))
              (rows (schema_datas db2))
           /\ forall sd, In sd (rows (schema_datas db)) -> sd_id sd < i.
Proof.
  intros Hfree Hu Hall schema.
  rewrite (schema_add_unfold data Hfree). fold schema.
  set (db1 := with_created_schema (si_name data) db).
  rewrite schema_add_loop_resolves.
  - simpl app. eexists. eexists. split; [reflexivity|]. split.
    + simpl. apply in_or_app. right. now left.
    + intros f Hin Ht Hv. simpl schema_datas at 1.
      rewrite bulk_create_rows.
      * destruct (keyed_from_in (spec_schema_data db1 schema) (si_fields data) f Hin
                    (next_pk sd_id (schema_datas db))) as [k [Hk Hle]].
        exists k. split.
        -- apply in_or_app. right.
           unfold spec_schema_data in Hk at 1.
           unfold db1 in Hk at 1.
           rewrite (spec_resolve_own_name f Hfree Ht Hv) in Hk.
           rewrite Ht in Hk. exact Hk.
        -- intros sd Hsd. pose proof (next_pk_fresh sd_id _ _ Hsd). lia.
      * intros mk i Hmk. apply in_map_iff in Hmk. destruct Hmk as [g [<- _]].
        reflexivity.
  - now apply with_created_schema_unique.
  - intros f Hin. destruct (Hall f Hin) as [[Ht Hv]|Hres].
    + unfold db1. rewrite (spec_resolve_own_name f Hfree Ht Hv). discriminate.
    + unfold db1. now rewrite spec_resolve_kept.
Qed.

End SchemaAddClaims.

Lemma schema_add_all_or_nothing_witness :
  name_free "User" empty_db
  /\ exists e,
       schema_add (models := sample_models) schema_in_bad empty_db
       = (set_schemas (mkTable [mkSchema 1 "User"] 1) empty_db, inl e).
Proof.
  assert (Hfree : name_free (si_name schema_in_bad) empty_db) by (intros s []).
  split; [exact Hfree|].
  destruct (@schema_add_all_or_nothing sample_models schema_in_bad empty_db Hfree)
    as [_ [_ [Hfail _]]].
  apply Hfail.
  exists (mkSchemaFieldIn "age" "primitive" "float"). split.
  - simpl. right. now left.
  - right. split; [discriminate|].
    simpl. intros [H|[H|[H|[]]]]; discriminate.
Defined.

Lemma schema_add_self_reference_witness :
  exists db2 detail,
    schema_add (models := sample_models) schema_in_node empty_db = (db2, inr detail)
    /\ In (mkSchema 1 "Node") (rows (schemas db2))
    /\ exists i, In (mkSchemaData i 1 "next" "schema" 1) (rows (schema_datas db2)).
Proof.
  assert (Hfree : name_free (si_name schema_in_node) empty_db) by (intros s []).
  assert (Hu : unique_schema_names empty_db) by constructor.
  destruct (@schema_add_self_reference sample_models schema_in_node empty_db Hfree Hu)
    as [db2 [detail [Hrun [Hs Hrows]]]].
  - simpl. intros f [<-|[<-|[]]].
    + right. discriminate.
    + left. split; reflexivity.
  - exists db2, detail. split; [exact Hrun|]. split; [exact Hs|].
    destruct (Hrows (mkSchemaFieldIn "next" "schema" "Node")) as [i [Hi _]].
    + simpl. right. now left.
    + reflexivity.
    + reflexivity.
    + exists i. exact Hi.
Defined.

(** The self-referencing schema, evaluated. *)
Example schema_add_node_runs :
  schema_add (models := sample_models) schema_in_node empty_db
  = (mkDB (empty_table _) (empty_table _) (empty_table _)
       (mkTable [mkSchema 1 "Node"] 1)
       (mkTable [mkSchemaData 1 1 "label" "primitive" 0;
                 mkSchemaData 2 1 "next" "schema" 1] 2),
     inr (mkSchemaDetail 1 "Node"
            [mkSchemaDataDetail 1 1 "label" "primitive" 0;
             mkSchemaDataDetail 2 1 "next" "schema" 1])).
Proof. reflexivity. Qed.

(* ================================================================== *)
(** * endpoint_schema_update *)
(* ================================================================== *)

Section Reconciler.
Context {models : Models}.

(* ---------------------------------------------------------------- *)
(** ** The validation loop *)
(* ---------------------------------------------------------------- *)

(** The accumulators are only appended to. *)
Lemma validate_fields_acc (names available : list string) (fs : list FieldIn) :
  forall to_change new,
    validate_fields names available fs to_change new
    = match validate_fields names available fs [] [] with
      | inl e => inl e
      | inr (x, y) => inr (to_change ++ x, new ++ y)
      end.
Proof.
  induction fs as [|f fs IH]; intros to_change new; simpl.
  - now rewrite !app_nil_r.
  - destruct (fi_isChanged f) as [c|]; [|apply IH].
    destruct (check_field names available f); [reflexivity|].
    destruct c.
    + rewrite IH. rewrite (IH [f] []).
      destruct (validate_fields names available fs [] []) as [e|[x y]];
        [reflexivity|]. now rewrite <- app_assoc.
    + rewrite IH. rewrite (IH [] [f]).
      destruct (validate_fields names available fs [] []) as [e|[x y]];
        [reflexivity|]. now rewrite <- app_assoc.
Qed.

(** When every marked entry passes, the loop returns the two groups of
    the design document, in the order of the request. *)
Lemma validate_fields_ok (names available : list string) (fs : list FieldIn) :
  (forall f, In f fs -> fi_isChanged f <> None ->
             check_field names available f = None) ->
  validate_fields names available fs [] []
  = inr (filter marked_changed fs, filter marked_new fs).
Proof.
  induction fs as [|f fs IH]; intros Hall; simpl; [reflexivity|].
  assert (Hrest : validate_fields names available fs [] []
                  = inr (filter marked_changed fs, filter marked_new fs)).
  { apply IH. intros g Hg. apply Hall. now right. }
  unfold marked_changed at 1, marked_new at 1.
  destruct (fi_isChanged f) as [c|] eqn:Ec; [|exact Hrest].
  rewrite (Hall f (or_introl eq_refl)) by congruence.
  destruct c; rewrite validate_fields_acc, Hrest; reflexivity.
Qed.

(** The first marked entry that fails decides the exception. *)
Lemma validate_fields_first_failure (names available : list string)
    (pre post : list FieldIn) (e : FieldIn) (msg : string) :
  (forall f, In f pre -> fi_isChanged f <> None ->
             check_field names available f = None) ->
  fi_isChanged e <> None ->
  check_field names available e = Some msg ->
  forall to_change new,
    validate_fields names available (pre ++ e :: post) to_change new
    = inl (NotAllowed msg).
Proof.
  intros Hpre He Hmsg.
  induction pre as [|f pre IH]; intros to_change new; simpl.
  - destruct (fi_isChanged e); [|congruence]. now rewrite Hmsg.
  - assert (IH' := IH (fun g Hg => Hpre g (or_intror Hg))).
    destruct (fi_isChanged f) as [c|] eqn:Ec; [|apply IH'].
    rewrite (Hpre f (or_introl eq_refl)) by congruence.
    destruct c; apply IH'.
Qed.

(** The loop raises nothing but [NotAllowed]. *)
Lemma validate_fields_raises (names available : list string) (fs : list FieldIn) :
  forall to_change new e,
    validate_fields names available fs to_change new = inl e ->
    exists msg, e = NotAllowed msg.
Proof.
  induction fs as [|f fs IH]; intros to_change new e; simpl; [discriminate|].
  destruct (fi_isChanged f) as [c|]; [|apply IH].
  destruct (check_field names available f) as [msg|].
  - intros H. injection H as <-. eauto.
  - destruct c; apply IH.
Qed.

(** Some marked entry fails: the loop raises. *)
Lemma validate_fields_some_failure (names available : list string) (fs : list FieldIn) :
  (exists f, In f fs /\ fi_isChanged f <> None
             /\ check_field names available f <> None) ->
  forall to_change new,
    exists msg, validate_fields names available fs to_change new = inl (NotAllowed msg).
Proof.
  induction fs as [|f fs IH]; intros [g [Hin [Hm Hc]]] to_change new; [destruct Hin|].
  simpl.
  destruct Hin as [->|Hin].
  - destruct (fi_isChanged g); [|congruence].
    destruct (check_field names available g) as [msg|]; [eauto|congruence].
  - assert (IH' := IH (ex_intro _ g (conj Hin (conj Hm Hc)))).
    destruct (fi_isChanged f) as [c|]; [|apply IH'].
    destruct (check_field names available f) as [msg|]; [eauto|].
    destruct c; apply IH'.
Qed.

(* ---------------------------------------------------------------- *)
(** ** The updates *)
(* ---------------------------------------------------------------- *)

(** Whatever the outcome, the updates keep the keys of the [Field]
    table and touch no other table. *)
Lemma update_fields_keys (fs : list FieldIn) :
  forall db,
    let db' := fst (update_fields fs db) in
    map f_id (rows (fields db')) = map f_id (rows (fields db))
    /\ last_pk (fields db') = last_pk (fields db)
    /\ base_endpoints db' = base_endpoints db
    /\ relative_endpoints db' = relative_endpoints db
    /\ schemas db' = schemas db
    /\ schema_datas db' = schema_datas db.
Proof.
  induction fs as [|f fs IH]; intros db; simpl.
  - repeat split.
  - destruct (fi_id f) as [i|]; [|simpl; repeat split].
    unfold bind, write.
    set (db1 := set_fields _ db).
    specialize (IH db1). simpl in IH.
    destruct (update_fields fs db1) as [db2 [e|[]]]; simpl in *;
      destruct IH as [Hk [Hl [Hb [Hr [Hs Hd]]]]];
      (split; [|repeat split; assumption]);
      rewrite Hk, map_map; apply map_ext; intros r;
      destruct (f_id r =? i); reflexivity.
Qed.

(** The updates raise nothing but the [KeyError] of a missing id. *)
Lemma update_fields_raises (fs : list FieldIn) :
  forall db db' e, update_fields fs db = (db', inl e) -> e = KeyError "id".
Proof.
  induction fs as [|f fs IH]; intros db db' e; simpl.
  - unfold ret. discriminate.
  - destruct (fi_id f) as [i|].
    + unfold bind, write.
      destruct (update_fields fs _) as [dbx [ex|ux]] eqn:E; [|discriminate].
      intros H. injection H as _ <-. eapply IH. exact E.
    + unfold raise. intros H. now injection H as _ <-.
Qed.

(** When every update carries an id, all of them are applied, row by
    row. *)
Lemma update_fields_ok (fs : list FieldIn) :
  (forall f, In f fs -> fi_id f <> None) ->
  forall db,
    update_fields fs db
    = (set_fields (mkTable (map (spec_updated_row fs) (rows (fields db)))
                     (last_pk (fields db))) db,
       inr tt).
Proof.
  induction fs as [|f fs IH]; intros Hall db; simpl.
  - unfold ret. f_equal. destruct db as [b r [fr fl] s d]. unfold set_fields. simpl.
    now rewrite map_id.
  - destruct (fi_id f) as [i|] eqn:Ei;
      [|exfalso; exact (Hall f (or_introl eq_refl) Ei)].
    unfold bind, write.
    rewrite IH by (intros g Hg; apply Hall; now right).
    f_equal. unfold set_fields. simpl. f_equal. f_equal.
    rewrite map_map. apply map_ext. intros r.
    unfold spec_updated_row. simpl. f_equal.
    unfold spec_update_row, overwrite_field. rewrite Ei. reflexivity.
Qed.

(* ---------------------------------------------------------------- *)
(** ** The run of [endpoint_schema_update] *)
(* ---------------------------------------------------------------- *)

(** The database after step one. *)
Lemma endpoint_schema_update_unfold (data : SchemaUpdateIn) (db : DB)
    (endpoint : RelativeEndpoint) :
  orm_get (fun r => re_id r =? su_id data) (relative_endpoints db) = inr endpoint ->
  let db1 := set_fields
               (delete_unlisted_fields endpoint (incoming_ids (su_fields data)) (fields db))
               db in
  endpoint_schema_update data db
  = match validate_fields (map s_name (rows (schemas db))) (url_params endpoint)
            (su_fields data) [] [] with
    | inl e => (db1, inl e)
    | inr (fields_to_change, new_fields) =>
        match update_fields fields_to_change db1 with
        | (db2, inl e) => (db2, inl e)
        | (db2, inr _) =>
            let db3 := set_fields
                         (bulk_create f_id (map (new_field (su_id data)) new_fields)
                            (fields db2)) db2 in
            (set_relative_endpoints
               (save_relative_endpoint (set_meta_data (su_meta_data data) endpoint)
                  (relative_endpoints db3)) db3,
             inr (set_meta_data (su_meta_data data) endpoint))
        end
    end.
Proof.
  intros Hget db1. unfold endpoint_schema_update, bind, lift, write, read, raise, ret.
  rewrite Hget. simpl schemas. fold db1.
  destruct (validate_fields _ _ _ _ _) as [e|[tc nf]]; [reflexivity|].
  destruct (update_fields tc db1) as [db2 [e|u]]; reflexivity.
Qed.

(** The row selected by id has that id. *)
Lemma orm_get_id (data_id : Z) (t : Table RelativeEndpoint) (endpoint : RelativeEndpoint) :
  orm_get (fun r => re_id r =? data_id) t = inr endpoint -> re_id endpoint = data_id.
Proof.
  intros H. destruct (orm_get_inr _ _ H) as [_ [_ Hp]]. now apply Z.eqb_eq.
Qed.

Lemma delete_unlisted_rows (endpoint : RelativeEndpoint) (ids : list Z) (t : Table Field) :
  rows (delete_unlisted_fields endpoint ids t) = spec_kept (re_id endpoint) ids (rows t).
Proof.
  unfold delete_unlisted_fields, delete_where, spec_kept. simpl.
  apply filter_ext. intros r. now rewrite negb_andb, negb_involutive.
Qed.

End Reconciler.

Section ReconcilerClaims.
Context {models : Models}.

Lemma filter_single_all (R : Type) (p : R -> bool) (l : list R) (x : R) :
  filter p l = [x] -> forall r, In r l -> p r = true -> r = x.
Proof.
  intros Hf r Hin Hp.
  assert (H : In r (filter p l)) by (apply filter_In; auto).
  rewrite Hf in H. destruct H as [H|[]]. now subst.
Qed.

(** [save()] of the endpoint that was read rewrites its row only. *)
Lemma save_relative_endpoint_rows (data_id : Z) (meta_data : string)
    (t : Table RelativeEndpoint) (endpoint : RelativeEndpoint) :
  orm_get (fun r => re_id r =? data_id) t = inr endpoint ->
  save_relative_endpoint (set_meta_data meta_data endpoint) t
  = mkTable (map (fun r => if re_id r =? data_id then set_meta_data meta_data r else r)
               (rows t))
      (last_pk t).
Proof.
  intros Hget. destruct (orm_get_inr _ _ Hget) as [Hf [Hin Hp]].
  pose proof (orm_get_id _ _ Hget) as Hid.
  unfold save_relative_endpoint. simpl re_id. rewrite Hid.
  assert (Hex : exists_where (fun r => re_id r =? data_id) t = true).
  { unfold exists_where. apply existsb_exists. eauto. }
  rewrite Hex. unfold update_where. f_equal.
  apply map_ext_in. intros r Hr.
  destruct (re_id r =? data_id) eqn:E; [|reflexivity].
  now rewrite (filter_single_all _ _ Hf r Hr E).
Qed.

(** The database a successful call leaves. *)
Lemma endpoint_schema_update_success (data : SchemaUpdateIn) (db : DB)
    (endpoint : RelativeEndpoint) :
  orm_get (fun r => re_id r =? su_id data) (relative_endpoints db) = inr endpoint ->
  (forall f, In f (su_fields data) -> fi_isChanged f <> None ->
     check_field (map s_name (rows (schemas db))) (url_params endpoint) f = None) ->
  (forall f, In f (su_fields data) -> fi_isChanged f = Some true -> fi_id f <> None) ->
  let updated :=
    mkTable (map (spec_updated_row (filter marked_changed (su_fields data)))
               (spec_kept (su_id data) (incoming_ids (su_fields data)) (rows (fields db))))
      (last_pk (fields db)) in
  endpoint_schema_update data db
  = (mkDB (base_endpoints db)
       (mkTable (map (fun r => if re_id r =? su_id data
                               then set_meta_data (su_meta_data data) r else r)
                   (rows (relative_endpoints db)))
          (last_pk (relative_endpoints db)))
       (bulk_create f_id
          (map (new_field (su_id data)) (filter marked_new (su_fields data))) updated)
       (schemas db) (schema_datas db),
     inr (set_meta_data (su_meta_data data) endpoint)).
Proof.
  intros Hget Hcheck Hids updated.
  rewrite (endpoint_schema_update_unfold data db Hget).
  rewrite (validate_fields_ok _ _ _ Hcheck).
  rewrite update_fields_ok.
  - cbv zeta. f_equal. unfold set_relative_endpoints, set_fields. simpl.
    rewrite (@save_relative_endpoint_rows _ (su_meta_data data) _ _ Hget).
    rewrite (orm_get_id _ _ Hget).
    fold (spec_kept (su_id data) (incoming_ids (su_fields data)) (rows (fields db))).
    unfold spec_kept.
    rewrite (filter_ext
               (fun r => negb ((f_relative_endpoint_id r =? su_id data)
                               && negb (id_in (f_id r) (incoming_ids (su_fields data)))))
               (fun r => negb (f_relative_endpoint_id r =? su_id data)
                         || id_in (f_id r) (incoming_ids (su_fields data))))
      by (intros r; now rewrite negb_andb, negb_involutive).
    reflexivity.
  - intros f Hf. apply filter_In in Hf. destruct Hf as [Hin Hm].
    apply Hids; [assumption|].
    unfold marked_changed in Hm. destruct (fi_isChanged f) as [[|]|]; congruence.
Qed.

Lemma keyed_from_new_field_ge (endpoint_id : Z) (l : list FieldIn) :
  forall i r, In r (keyed_from i (map (new_field endpoint_id) l)) -> i <= f_id r.
Proof.
  induction l as [|x l IH]; intros i r; simpl; [tauto|].
  intros [<-|H]; [simpl; lia|]. specialize (IH _ _ H). lia.
Qed.

Lemma marked_changed_true (f : FieldIn) :
  marked_changed f = true <-> fi_isChanged f = Some true.
Proof.
  unfold marked_changed. destruct (fi_isChanged f) as [[|]|]; split; congruence.
Qed.

(** A row already overwritten by [f] stays so under updates that carry
    another id or are [f] again. *)
Lemma spec_updated_row_stable (f : FieldIn) (i : Z) (updates : list FieldIn) (r : Field) :
  fi_id f = Some i -> f_id r = i ->
  (forall g, In g updates -> fi_id g = Some i -> g = f) ->
  spec_updated_row updates (spec_update_row f r) = spec_update_row f r.
Proof.
  intros Hf Hr. unfold spec_updated_row.
  induction updates as [|g updates IH]; intros Hall; simpl; [reflexivity|].
  assert (Hg : spec_update_row g (spec_update_row f r) = spec_update_row f r).
  { unfold spec_update_row at 1. destruct (fi_id g) as [j|] eqn:Ej; [|reflexivity].
    assert (Hid : f_id (spec_update_row f r) = i).
    { unfold spec_update_row. rewrite Hf. destruct (f_id r =? i); simpl; assumption. }
    rewrite Hid. destruct (i =? j) eqn:E; [|reflexivity].
    apply Z.eqb_eq in E. subst j.
    rewrite (Hall g (or_introl eq_refl) Ej).
    unfold spec_update_row. rewrite Hf, Hr, Z.eqb_refl. reflexivity. }
  rewrite Hg. apply IH. intros h Hh. apply Hall. now right.
Qed.

(** The one update that carries the id of a row overwrites it. *)
Lemma spec_updated_row_by (f : FieldIn) (i : Z) (updates : list FieldIn) (r : Field) :
  fi_id f = Some i -> f_id r = i ->
  (forall g, In g updates -> fi_id g = Some i -> g = f) ->
  In f updates ->
  spec_updated_row updates r
  = mkField i (f_relative_endpoint_id r) (fi_key f) (fi_value f) (fi_type f)
      (fi_is_array f).
Proof.
  intros Hf Hr.
  assert (Ho : spec_update_row f r
               = mkField i (f_relative_endpoint_id r) (fi_key f) (fi_value f)
                   (fi_type f) (fi_is_array f)).
  { unfold spec_update_row. rewrite Hf, Hr, Z.eqb_refl. reflexivity. }
  induction updates as [|g updates IH]; intros Hall Hin; [destruct Hin|].
  change (spec_updated_row (g :: updates) r)
    with (spec_updated_row updates (spec_update_row g r)).
  destruct (fi_id g) as [j|] eqn:Ej.
  - destruct (Z.eq_dec j i) as [->|Hne].
    + rewrite (Hall g (or_introl eq_refl) Ej).
      rewrite (@spec_updated_row_stable f i updates r Hf Hr); [exact Ho|].
      intros h Hh. apply Hall. now right.
    + assert (Hg : spec_update_row g r = r).
      { unfold spec_update_row. rewrite Ej, Hr.
        destruct (i =? j) eqn:E; [|reflexivity].
        apply Z.eqb_eq in E. congruence. }
      rewrite Hg. apply IH; [intros h Hh; apply Hall; now right|].
      destruct Hin as [->|Hin]; [congruence|assumption].
  - assert (Hg : spec_update_row g r = r) by (unfold spec_update_row; now rewrite Ej).
    rewrite Hg. apply IH; [intros h Hh; apply Hall; now right|].
    destruct Hin as [->|Hin]; [congruence|assumption].
Qed.

(** C1.  Let the endpoint exist, let every entry that carries
    [isChanged] pass the validation, and let every entry with a truthy
    [isChanged] carry an id.  Then the call returns and the [Field]
    table is: the rows that survive step one, each overwritten in
    place (key, value, type, is_array) by the entries with a truthy
    [isChanged] that have its id, in request order, followed by one
    fresh row bound to the endpoint for each entry with a falsy
    [isChanged], in request order.  An entry without [isChanged] is not
    asked to pass the validation and is in neither group.  In
    particular the one entry with a truthy [isChanged] that carries the
    id of a surviving row overwrites that row, which keeps its id and
    its endpoint; and each entry with a falsy [isChanged] is stored
    under a key that no surviving row has. *)
Theorem endpoint_schema_update_routes (data : SchemaUpdateIn) (db : DB)
    (endpoint : RelativeEndpoint) :
  orm_get (fun r => re_id r =? su_id data) (relative_endpoints db) = inr endpoint ->
  (forall f, In f (su_fields data) -> fi_isChanged f <> None ->
     check_field (map s_name (rows (schemas db))) (url_params endpoint) f = None) ->
  (forall f, In f (su_fields data) -> fi_isChanged f = Some true -> fi_id f <> None) ->
  let kept := spec_kept (su_id data) (incoming_ids (su_fields data)) (rows (fields db)) in
  let updated := map (spec_updated_row (filter marked_changed (su_fields data))) kept in
  exists db',
    endpoint_schema_update data db
    = (db', inr (set_meta_data (su_meta_data data) endpoint))
    /\ rows (fields db')
       = updated
         ++ keyed_from (next_pk f_id (mkTable updated (last_pk (fields db))))
              (map (new_field (su_id data)) (filter marked_new (su_fields data)))
    /\ (forall f i r,
          In f (su_fields data) -> fi_isChanged f = Some true -> fi_id f = Some i ->
          (forall g, In g (su_fields data) -> fi_isChanged g = Some true ->
                     fi_id g = Some i -> g = f) ->
          In r kept -> f_id r = i ->
          In (mkField i (f_relative_endpoint_id r) (fi_key f) (fi_value f) (fi_type f)
                (fi_is_array f))
             (rows (fields db')))
    /\ (forall f, In f (su_fields data) -> fi_isChanged f = Some false ->
          exists i,
            In (mkField i (su_id data) (fi_key f) (fi_value f) (fi_type f) (fi_is_array f))
               (rows (fields db'))
            /\ forall r, In r updated -> f_id r < i).
Proof.
  intros Hget Hcheck Hids kept updated.
  rewrite (endpoint_schema_update_success data db Hget Hcheck Hids).
  fold kept. fold updated.
  eexists. split; [reflexivity|]. simpl fields.
  assert (Hrows : rows (bulk_create f_id
                          (map (new_field (su_id data)) (filter marked_new (su_fields data)))
                          (mkTable updated (last_pk (fields db))))
                  = updated
                    ++ keyed_from (next_pk f_id (mkTable updated (last_pk (fields db))))
                         (map (new_field (su_id data))
                            (filter marked_new (su_fields data)))).
  { rewrite bulk_create_rows; [reflexivity|].
    intros mk i Hmk. apply in_map_iff in Hmk. destruct Hmk as [g [<- _]]. reflexivity. }
  split; [exact Hrows|]. split.
  { intros f i r Hin Hch Hi Honly Hr Hri. rewrite Hrows.
    apply in_or_app. left.
    rewrite <- (@spec_updated_row_by f i (filter marked_changed (su_fields data)) r
                  Hi Hri).
    - unfold updated. now apply in_map.
    - intros g Hg Hgi. apply filter_In in Hg. destruct Hg as [Hg Hm].
      apply Honly; auto. now apply marked_changed_true.
    - apply filter_In. split; [assumption|]. now apply marked_changed_true. }
  intros f Hin Hnew. rewrite Hrows.
  assert (Hf : In f (filter marked_new (su_fields data))).
  { apply filter_In. split; [assumption|]. unfold marked_new. now rewrite Hnew. }
  destruct (keyed_from_in (new_field (su_id data)) _ f Hf
              (next_pk f_id (mkTable updated (last_pk (fields db))))) as [k [Hk Hle]].
  exists k. split.
  - apply in_or_app. right. exact Hk.
  - intros r Hr.
    pose proof (next_pk_fresh f_id (mkTable updated (last_pk (fields db))) r Hr). lia.
Qed.

(** C2.  Let the endpoint exist and let some entry that carries
    [isChanged] fail the validation.  Then the call raises
    [NotAllowed], and the database it leaves differs from the one it
    found only by the deletion of step one: the [Field] rows are the
    rows that survive step one, unchanged and with none added, and the
    relative endpoints (so the [meta_data]) and the other tables are as
    they were. *)
Theorem endpoint_schema_update_validation_failure (data : SchemaUpdateIn) (db : DB)
    (endpoint : RelativeEndpoint) :
  orm_get (fun r => re_id r =? su_id data) (relative_endpoints db) = inr endpoint ->
  (exists f, In f (su_fields data) /\ fi_isChanged f <> None
             /\ check_field (map s_name (rows (schemas db))) (url_params endpoint) f
                <> None) ->
  exists msg db',
    endpoint_schema_update data db = (db', inl (NotAllowed msg))
    /\ rows (fields db')
       = spec_kept (su_id data) (incoming_ids (su_fields data)) (rows (fields db))
    /\ last_pk (fields db') = last_pk (fields db)
    /\ relative_endpoints db' = relative_endpoints db
    /\ base_endpoints db' = base_endpoints db
    /\ schemas db' = schemas db
    /\ schema_datas db' = schema_datas db.
Proof.
  intros Hget Hbad.
  rewrite (endpoint_schema_update_unfold data db Hget).
  destruct (@validate_fields_some_failure _ _ _ _ Hbad [] []) as [msg Hmsg].
  rewrite Hmsg. exists msg. eexists. split; [reflexivity|].
  simpl. rewrite <- (orm_get_id _ _ Hget).
  split; [apply delete_unlisted_rows|]. repeat split.
Qed.

End ReconcilerClaims.

Section ReconcilerDeletion.
Context {models : Models}.

Lemma incoming_ids_in (fs : list FieldIn) (i : Z) :
  In i (incoming_ids fs) <-> exists e, In e fs /\ fi_id e = Some i /\ 0 < i.
Proof.
  unfold incoming_ids. rewrite in_flat_map. split.
  - intros [e [Hin Hi]]. exists e. split; [assumption|].
    destruct (fi_id e) as [j|]; [|destruct Hi].
    destruct (0 <? j) eqn:E; [|destruct Hi].
    destruct Hi as [->|[]]. apply Z.ltb_lt in E. auto.
  - intros [e [Hin [He Hpos]]]. exists e. split; [assumption|].
    rewrite He. apply Z.ltb_lt in Hpos. rewrite Hpos. now left.
Qed.

Lemma id_in_true (i : Z) (ids : list Z) : id_in i ids = true <-> In i ids.
Proof.
  unfold id_in. rewrite existsb_exists. split.
  - intros [x [Hin Hx]]. apply Z.eqb_eq in Hx. now subst.
  - intros Hin. exists i. split; [assumption|apply Z.eqb_refl].
Qed.

Lemma same_key_same_row (l : list Field) (a b : Field) :
  NoDup (map f_id l) -> In a l -> In b l -> f_id a = f_id b -> a = b.
Proof.
  induction l as [|x l IH]; simpl; intros Hnd Ha Hb Heq; [destruct Ha|].
  inversion Hnd as [|? ? Hnotin Hnd']; subst.
  destruct Ha as [->|Ha], Hb as [->|Hb]; auto.
  - exfalso. apply Hnotin. rewrite Heq. now apply in_map.
  - exfalso. apply Hnotin. rewrite <- Heq. now apply in_map.
Qed.

(** After step one no surviving row has the key of a deleted row. *)
Lemma spec_kept_key_gone (endpoint_id : Z) (ids : list Z) (l : list Field) (f : Field) :
  NoDup (map f_id l) ->
  In f l -> f_relative_endpoint_id f = endpoint_id -> ~ In (f_id f) ids ->
  ~ In (f_id f) (map f_id (spec_kept endpoint_id ids l)).
Proof.
  intros Hnd Hin Howner Hid H.
  apply in_map_iff in H. destruct H as [r [Hr Hrin]].
  unfold spec_kept in Hrin. apply filter_In in Hrin. destruct Hrin as [Hrl Hp].
  assert (r = f) by (now apply (same_key_same_row l)). subst r.
  apply orb_true_iff in Hp. destruct Hp as [Hp|Hp].
  - apply negb_true_iff, Z.eqb_neq in Hp. contradiction.
  - apply id_in_true in Hp. contradiction.
Qed.

(** C3.  Let the endpoint exist, on a [Field] table with sound keys.
    Take a current field of the endpoint whose id is not the id of any
    incoming entry that carries a positive id.  Whatever the outcome of
    the call (return, validation failure or any other exception), the
    database it leaves has no [Field] row with that id; and when the
    validation raises, the [Field] rows left are exactly the rows that
    survive the deletion, so the deletion was done before the
    validation and is not taken back. *)
Theorem endpoint_schema_update_deletes_first (data : SchemaUpdateIn) (db : DB)
    (endpoint : RelativeEndpoint) (f : Field) :
  orm_get (fun r => re_id r =? su_id data) (relative_endpoints db) = inr endpoint ->
  field_keys_ok db ->
  In f (rows (fields db)) ->
  f_relative_endpoint_id f = su_id data ->
  ~ (exists e, In e (su_fields data) /\ fi_id e = Some (f_id f) /\ 0 < f_id f) ->
  let db' := fst (endpoint_schema_update data db) in
  let res := snd (endpoint_schema_update data db) in
  (forall f', In f' (rows (fields db')) -> f_id f' <> f_id f)
  /\ (forall msg, res = inl (NotAllowed msg) ->
        rows (fields db')
        = spec_kept (su_id data) (incoming_ids (su_fields data)) (rows (fields db))
        /\ ~ In f (rows (fields db'))).
Proof.
  intros Hget [Hnd Hle] Hin Howner Hnot.
  rewrite <- incoming_ids_in in Hnot.
  pose proof (@spec_kept_key_gone (su_id data) _ _ f Hnd Hin Howner Hnot) as Hgone.
  pose proof (orm_get_id _ _ Hget) as Hid.
  rewrite (@endpoint_schema_update_unfold _ _ _ _ Hget).
  set (db1 := set_fields _ db).
  assert (Hrows1 : rows (fields db1)
                   = spec_kept (su_id data) (incoming_ids (su_fields data))
                       (rows (fields db))).
  { unfold db1, set_fields. cbn [fields]. rewrite delete_unlisted_rows. now rewrite Hid. }
  assert (Hnotin : forall l, map f_id l = map f_id (rows (fields db1)) ->
                             forall f', In f' l -> f_id f' <> f_id f).
  { intros l Hl f' Hf' Heq. apply Hgone. rewrite <- Hrows1, <- Hl, <- Heq.
    now apply in_map. }
  destruct (validate_fields _ _ _ _ _) as [e|[tc nf]] eqn:Ev.
  - simpl. split.
    + now apply Hnotin.
    + intros msg _. split; [exact Hrows1|].
      intros Hf. apply (Hnotin _ eq_refl f Hf). reflexivity.
  - pose proof (update_fields_keys tc db1) as Hk. simpl in Hk.
    destruct (update_fields tc db1) as [db2 [e|u]] eqn:Eu; simpl in Hk;
      destruct Hk as [Hkeys [Hlast _]].
    + simpl. split.
      * now apply Hnotin.
      * intros msg Hmsg. exfalso.
        rewrite (update_fields_raises tc db1 Eu) in Hmsg. discriminate.
    + simpl. split; [|discriminate].
      intros f' Hf'. rewrite bulk_create_rows in Hf'.
      * apply in_app_or in Hf'. destruct Hf' as [Hf'|Hf'].
        -- now apply (Hnotin _ Hkeys).
        -- apply keyed_from_new_field_ge in Hf'.
           assert (f_id f <= last_pk (fields db)) by now apply Hle.
           assert (last_pk (fields db2) = last_pk (fields db)) by (rewrite Hlast; reflexivity).
           unfold next_pk in Hf'. lia.
      * intros mk i Hmk. apply in_map_iff in Hmk. destruct Hmk as [g [<- _]].
        reflexivity.
Qed.

End ReconcilerDeletion.

Section ReconcilerTypeAndEmpty.
Context {models : Models}.

(** A type outside the four tags falls through to the last branch. *)
Lemma check_field_unknown_type (names available : list string) (field : FieldIn) :
  fi_type field <> SCHEMA -> fi_type field <> VALUE ->
  fi_type field <> URL_PARAM -> fi_type field <> QUERY_PARAM ->
  check_field names available field = Some field_type_msg.
Proof.
  intros H1 H2 H3 H4. unfold check_field.
  apply String.eqb_neq in H1, H2, H3, H4. now rewrite H1, H2, H3, H4.
Qed.

(** C6.  Let the endpoint exist, and let an entry that carries
    [isChanged] have a type that is none of SCHEMA, VALUE, URL_PARAM,
    QUERY_PARAM, every marked entry before it passing the validation.
    Then the call raises [NotAllowed] at that entry, whatever follows
    it, with the message "The field type should be one of " followed by
    the three tags SCHEMA, VALUE and URL_PARAM separated by ", ":
    QUERY_PARAM is not part of it.  Only the deletion of step one has
    been done by then. *)
Theorem endpoint_schema_update_unknown_type (data : SchemaUpdateIn) (db : DB)
    (endpoint : RelativeEndpoint) (pre post : list FieldIn) (e : FieldIn) :
  orm_get (fun r => re_id r =? su_id data) (relative_endpoints db) = inr endpoint ->
  su_fields data = pre ++ e :: post ->
  (forall f, In f pre -> fi_isChanged f <> None ->
     check_field (map s_name (rows (schemas db))) (url_params endpoint) f = None) ->
  fi_isChanged e <> None ->
  fi_type e <> SCHEMA -> fi_type e <> VALUE ->
  fi_type e <> URL_PARAM -> fi_type e <> QUERY_PARAM ->
  endpoint_schema_update data db
  = (set_fields
       (delete_unlisted_fields endpoint (incoming_ids (su_fields data)) (fields db)) db,
     inl (NotAllowed
            ("The field type should be one of " ++ SCHEMA ++ ", " ++ VALUE ++ ", "
               ++ URL_PARAM)%string)).
Proof.
  intros Hget Hfs Hpre Hmarked H1 H2 H3 H4.
  rewrite (@endpoint_schema_update_unfold _ _ _ _ Hget).
  assert (Hv : validate_fields (map s_name (rows (schemas db))) (url_params endpoint)
                 (su_fields data) [] []
               = inl (NotAllowed field_type_msg)).
  { rewrite Hfs. apply validate_fields_first_failure; auto.
    now apply check_field_unknown_type. }
  rewrite Hv. reflexivity.
Qed.

(** C10.  With an empty list of fields and an existing endpoint the
    call returns; the [Field] table loses exactly the rows of the
    endpoint and gets no new row and no new key; the row of the
    endpoint gets the supplied [meta_data] and nothing else changes. *)
Theorem endpoint_schema_update_empty (data : SchemaUpdateIn) (db : DB)
    (endpoint : RelativeEndpoint) :
  orm_get (fun r => re_id r =? su_id data) (relative_endpoints db) = inr endpoint ->
  su_fields data = [] ->
  exists db',
    endpoint_schema_update data db
    = (db', inr (set_meta_data (su_meta_data data) endpoint))
    /\ rows (fields db')
       = filter (fun r => negb (f_relative_endpoint_id r =? su_id data)) (rows (fields db))
    /\ (forall r, In r (rows (fields db')) -> f_relative_endpoint_id r <> su_id data)
    /\ last_pk (fields db') = last_pk (fields db)
    /\ rows (relative_endpoints db')
       = map (fun r => if re_id r =? su_id data
                       then set_meta_data (su_meta_data data) r else r)
           (rows (relative_endpoints db))
    /\ re_meta_data (set_meta_data (su_meta_data data) endpoint) = su_meta_data data
    /\ base_endpoints db' = base_endpoints db
    /\ schemas db' = schemas db
    /\ schema_datas db' = schema_datas db.
Proof.
  intros Hget Hfs.
  rewrite (@endpoint_schema_update_success _ data db endpoint Hget);
    try (rewrite Hfs; intros f []).
  rewrite Hfs. simpl.
  assert (Hrows : map (spec_updated_row [])
                    (spec_kept (su_id data) [] (rows (fields db)))
                  = filter (fun r => negb (f_relative_endpoint_id r =? su_id data))
                      (rows (fields db))).
  { unfold spec_updated_row. simpl. rewrite map_id. unfold spec_kept.
    apply filter_ext. intros r. simpl. now rewrite orb_false_r. }
  eexists. split; [reflexivity|]. simpl. rewrite Hrows.
  split; [reflexivity|]. split; [|repeat split].
  intros r Hr. apply filter_In in Hr. destruct Hr as [_ Hp].
  now apply negb_true_iff, Z.eqb_neq in Hp.
Qed.

End ReconcilerTypeAndEmpty.

(* ---------------------------------------------------------------- *)
(** ** The reconciler on the sample endpoint *)
(* ---------------------------------------------------------------- *)

Lemma endpoint_schema_update_routes_witness :
  exists db',
    endpoint_schema_update (models := sample_models) update_in_ok db_two_fields
    = (db', inr (mkRelativeEndpoint 1 1 "/users/{id}" "GET" "^/users/(?P<id>[^/]+)$"
                   "[1, 2]"))
    /\ rows (fields db')
       = [mkField 1 1 "uid" "id" "URL_PARAM" false;
          mkField 3 1 "owner" "User" "SCHEMA" false].
Proof.
  destruct (@endpoint_schema_update_routes sample_models update_in_ok db_two_fields
              (mkRelativeEndpoint 1 1 "/users/{id}" "GET" "^/users/(?P<id>[^/]+)$" "{}")
              eq_refl) as [db' [Hrun [Hrows _]]].
  - intros f Hin Hm. simpl in Hin.
    destruct Hin as [<-|[<-|[<-|[]]]]; try reflexivity.
    exfalso. apply Hm. reflexivity.
  - intros f Hin Hm. simpl in Hin.
    destruct Hin as [<-|[<-|[<-|[]]]]; discriminate.
  - exists db'. split; [exact Hrun|]. rewrite Hrows. reflexivity.
Defined.

Lemma endpoint_schema_update_validation_failure_witness :
  exists msg db',
    endpoint_schema_update (models := sample_models) update_in_bad_type db_two_fields
    = (db', inl (NotAllowed msg))
    /\ rows (fields db') = [mkField 1 1 "name" "string" "VALUE" false]
    /\ relative_endpoints db' = relative_endpoints db_two_fields.
Proof.
  destruct (@endpoint_schema_update_validation_failure sample_models update_in_bad_type
              db_two_fields
              (mkRelativeEndpoint 1 1 "/users/{id}" "GET" "^/users/(?P<id>[^/]+)$" "{}")
              eq_refl)
    as [msg [db' [Hrun [Hrows [_ [Hrel _]]]]]].
  - exists (mkFieldIn (Some 1) "name" "BOGUS" "string" false (Some true)).
    split; [now left|]. split; discriminate.
  - exists msg, db'. split; [exact Hrun|]. split; [|exact Hrel].
    rewrite Hrows. reflexivity.
Defined.

Lemma db_two_fields_keys_ok : field_keys_ok db_two_fields.
Proof.
  split.
  - simpl. repeat constructor; simpl; intuition discriminate.
  - intros r Hr. simpl in Hr. destruct Hr as [<-|[<-|[]]]; simpl; lia.
Defined.

Lemma endpoint_schema_update_deletes_first_witness :
  field_keys_ok db_two_fields
  /\ forall f',
       In f' (rows (fields (fst (endpoint_schema_update (models := sample_models)
                                   update_in_bad_type db_two_fields)))) ->
       f_id f' <> 2.
Proof.
  split; [exact db_two_fields_keys_ok|].
  destruct (@endpoint_schema_update_deletes_first sample_models update_in_bad_type
              db_two_fields
              (mkRelativeEndpoint 1 1 "/users/{id}" "GET" "^/users/(?P<id>[^/]+)$" "{}")
              (mkField 2 1 "tags" "string" "VALUE" true)
              eq_refl db_two_fields_keys_ok) as [H _].
  - simpl. right. now left.
  - reflexivity.
  - intros [e [Hin [He _]]]. simpl in Hin. destruct Hin as [<-|[]]. discriminate.
  - exact H.
Defined.

Lemma endpoint_schema_update_unknown_type_witness :
  endpoint_schema_update (models := sample_models) update_in_bad_type db_two_fields
  = (set_fields (mkTable [mkField 1 1 "name" "string" "VALUE" false] 2) db_two_fields,
     inl (NotAllowed "The field type should be one of SCHEMA, VALUE, URL_PARAM")).
Proof.
  apply (@endpoint_schema_update_unknown_type sample_models update_in_bad_type
           db_two_fields
           (mkRelativeEndpoint 1 1 "/users/{id}" "GET" "^/users/(?P<id>[^/]+)$" "{}")
           [] [] (mkFieldIn (Some 1) "name" "BOGUS" "string" false (Some true)));
    try reflexivity; try discriminate.
  intros f [].
Defined.

Lemma endpoint_schema_update_empty_witness :
  exists db',
    endpoint_schema_update (models := sample_models) update_in_empty db_two_fields
    = (db', inr (mkRelativeEndpoint 1 1 "/users/{id}" "GET" "^/users/(?P<id>[^/]+)$"
                   "null"))
    /\ rows (fields db') = []
    /\ rows (relative_endpoints db')
       = [mkRelativeEndpoint 1 1 "/users/{id}" "GET" "^/users/(?P<id>[^/]+)$" "null"].
Proof.
  destruct (@endpoint_schema_update_empty sample_models update_in_empty db_two_fields
              (mkRelativeEndpoint 1 1 "/users/{id}" "GET" "^/users/(?P<id>[^/]+)$" "{}")
              eq_refl eq_refl)
    as [db' [Hrun [Hrows [_ [_ [Hrel _]]]]]].
  exists db'. split; [exact Hrun|]. split.
  - rewrite Hrows. reflexivity.
  - rewrite Hrel. reflexivity.
Defined.

(* ================================================================== *)
(** * data_export and data_import *)
(* ================================================================== *)

(** Two filters that never both hold split the list they both hold on. *)
Lemma filter_disjoint_union (A : Type) (p q : A -> bool) (l : list A) :
  (forall x, In x l -> p x = true -> q x = true -> False) ->
  Permutation (filter p l ++ filter q l) (filter (fun x => p x || q x) l).
Proof.
  induction l as [|x l IH]; intros Hd; simpl; [constructor|].
  assert (IH' := IH (fun y Hy => Hd y (or_intror Hy))).
  destruct (p x) eqn:Ep, (q x) eqn:Eq; simpl.
  - exfalso. apply (Hd x); auto. now left.
  - now constructor.
  - apply Permutation_sym, Permutation_cons_app, Permutation_sym. exact IH'.
  - exact IH'.
Qed.

Lemma filter_all (A : Type) (p : A -> bool) (l : list A) :
  (forall x, In x l -> p x = true) -> filter p l = l.
Proof.
  induction l as [|x l IH]; intros H; simpl; [reflexivity|].
  rewrite (H x) by now left. f_equal. apply IH. intros y Hy. apply H. now right.
Qed.

(** Grouping the fields by owner, in the order of the endpoints, gives
    the fields owned by one of the endpoints. *)
Lemma group_by_owner (rels : list RelativeEndpoint) (fs : list Field) :
  NoDup (map re_id rels) ->
  Permutation
    (flat_map (fun r => filter (fun f => f_relative_endpoint_id f =? re_id r) fs) rels)
    (filter (fun f => existsb (fun r => f_relative_endpoint_id f =? re_id r) rels) fs).
Proof.
  induction rels as [|r rels IH]; intros Hnd; simpl.
  - induction fs; simpl; auto.
  - inversion Hnd as [|? ? Hnotin Hnd']; subst.
    eapply Permutation_trans.
    + apply Permutation_app_head. apply IH. exact Hnd'.
    + apply filter_disjoint_union.
      intros f _ Hp Hq. apply Z.eqb_eq in Hp.
      apply existsb_exists in Hq. destruct Hq as [r' [Hr' Heq]].
      apply Z.eqb_eq in Heq. apply Hnotin. rewrite <- Hp, Heq. now apply in_map.
Qed.

Lemma group_by_owner_all (rels : list RelativeEndpoint) (fs : list Field) :
  NoDup (map re_id rels) ->
  (forall f, In f fs -> exists r, In r rels /\ re_id r = f_relative_endpoint_id f) ->
  Permutation
    (flat_map (fun r => filter (fun f => f_relative_endpoint_id f =? re_id r) fs) rels)
    fs.
Proof.
  intros Hnd Hown.
  eapply Permutation_trans; [apply group_by_owner; exact Hnd|].
  rewrite filter_all; [apply Permutation_refl|].
  intros f Hf. apply existsb_exists.
  destruct (Hown f Hf) as [r [Hr Hid]]. exists r. split; [assumption|].
  apply Z.eqb_eq. now symmetry.
Qed.

Section ExportImportLemmas.
Context {models : Models} {json : Json}.

(** The loop of [data_import] only appends to its accumulators. *)
Lemma import_relative_endpoints_acc (l : list RelativeEndpointDetail) :
  forall acc_endpoints acc_fields,
    import_relative_endpoints l acc_endpoints acc_fields
    = (acc_endpoints ++ map import_relative_endpoint l,
       acc_fields ++ flat_map (fun d => map (import_field d) (red_fields d)) l).
Proof.
  induction l as [|d l IH]; intros ae af; simpl.
  - now rewrite !app_nil_r.
  - rewrite IH. now rewrite <- !app_assoc.
Qed.

(** Reading back the view of an endpoint: its row with the [meta_data]
    serialized again, and its fields as they are stored. *)
Lemma import_of_detail (db : DB) (r : RelativeEndpoint) (d : RelativeEndpointDetail) :
  relative_endpoint_detail db r = inr d ->
  import_relative_endpoint d = reserialized r
  /\ map (import_field d) (red_fields d)
     = filter (fun f => f_relative_endpoint_id f =? re_id r) (rows (fields db)).
Proof.
  unfold relative_endpoint_detail, reserialized.
  destruct (json_loads (re_meta_data r)) as [j|]; [|discriminate].
  intros H. injection H as <-. split; [reflexivity|].
  simpl. rewrite map_map.
  rewrite <- (map_id (filter _ (rows (fields db)))) at 2.
  apply map_ext_in. intros f Hf. apply filter_In in Hf. destruct Hf as [_ Hp].
  apply Z.eqb_eq in Hp. destruct f. simpl in *. now subst.
Qed.

(** When every [meta_data] parses, the views of the endpoints are
    built, and reading them back gives the rows and their fields. *)
Lemma relative_endpoints_detail_ok (db : DB) (l : list RelativeEndpoint) :
  (forall r, In r l -> json_loads (re_meta_data r) <> None) ->
  exists ds,
    relative_endpoints_detail db l = inr ds
    /\ map import_relative_endpoint ds = map reserialized l
    /\ flat_map (fun d => map (import_field d) (red_fields d)) ds
       = flat_map (fun r => filter (fun f => f_relative_endpoint_id f =? re_id r)
                              (rows (fields db))) l.
Proof.
  induction l as [|r l IH]; intros Hp; simpl.
  - exists []. auto.
  - destruct IH as [ds [Hds [Hm Hf]]]; [intros x Hx; apply Hp; now right|].
    destruct (relative_endpoint_detail db r) as [e|d] eqn:E.
    + exfalso. unfold relative_endpoint_detail in E.
      specialize (Hp r (or_introl eq_refl)).
      destruct (json_loads (re_meta_data r)); [discriminate|congruence].
    + rewrite Hds. exists (d :: ds). split; [reflexivity|].
      destruct (import_of_detail db r E) as [Hd Hdf].
      simpl. now rewrite Hd, Hm, Hdf, Hf.
Qed.

Lemma import_base_endpoint_detail (l : list BaseEndpoint) :
  map import_base_endpoint (map base_endpoint_detail l) = l.
Proof.
  rewrite map_map. rewrite <- (map_id l) at 2. apply map_ext. now intros [].
Qed.

Lemma import_schema_detail (db : DB) (l : list Schema) :
  map import_schema (map (schema_detail db) l) = l.
Proof.
  rewrite map_map. rewrite <- (map_id l) at 2. apply map_ext. now intros [].
Qed.

Lemma import_schema_data_detail (l : list SchemaData) :
  map import_schema_data (map schema_data_detail l) = l.
Proof.
  rewrite map_map. rewrite <- (map_id l) at 2. apply map_ext. now intros [].
Qed.

(** The tables [data_import] leaves hold what the snapshot lists. *)
Lemma data_import_rows (data : Snapshot) (db0 : DB) :
  exists db',
    data_import data db0 = (db', inr tt)
    /\ rows (base_endpoints db') = map import_base_endpoint (snap_base_endpoints data)
    /\ rows (relative_endpoints db')
       = map import_relative_endpoint (snap_relative_endpoints data)
    /\ rows (fields db')
       = flat_map (fun d => map (import_field d) (red_fields d))
           (snap_relative_endpoints data)
    /\ rows (schemas db') = map import_schema (snap_schema data)
    /\ rows (schema_datas db') = map import_schema_data (snap_schema_data data).
Proof.
  unfold data_import. rewrite import_relative_endpoints_acc. simpl app.
  unfold bind, write. eexists. split; [reflexivity|]. simpl. repeat split.
Qed.

End ExportImportLemmas.

Section RoundTrip.
Context {models : Models} {json : Json}.

Lemma reserialized_canonical (l : list RelativeEndpoint) :
  (forall r, In r l ->
     exists j, json_loads (re_meta_data r) = Some j /\ json_dumps j = re_meta_data r) ->
  map reserialized l = l.
Proof.
  intros H. rewrite <- (map_id l) at 2. apply map_ext_in. intros r Hr.
  destruct (H r Hr) as [j [Hl Hd]]. unfold reserialized, set_meta_data.
  rewrite Hl, Hd. now destruct r.
Qed.

Lemma reserialized_same (l : list RelativeEndpoint) :
  (forall j, json_loads (json_dumps j) = Some j) ->
  Forall2 same_endpoint (map reserialized l) l.
Proof.
  intros Hlaw. induction l as [|r l IH]; simpl; constructor; [|exact IH].
  unfold reserialized, same_endpoint.
  destruct (json_loads (re_meta_data r)) as [j|] eqn:E; simpl.
  - rewrite Hlaw. repeat split.
  - repeat split. exact E.
Qed.

(** C7.  Let the relative endpoints have distinct ids, every field
    belong to a stored relative endpoint, and every stored [meta_data]
    be JSON text.  Then [data_export] returns a snapshot without
    changing the database, and [data_import] of that snapshot, on
    whatever the database holds by then, returns and leaves: the same
    base endpoint, schema and schema-data rows, in the same order; the
    same field rows, grouped by endpoint (a permutation of the
    original rows); and the relative endpoint rows with every column as
    it was, ids included, and the [meta_data] text parsed and
    serialized again: the same rows when the stored text is what
    [json.dumps] writes, and rows with the same parsed [meta_data] when
    [json.loads] inverts [json.dumps]. *)
Theorem export_import_round_trip (db db0 : DB) :
  unique_relative_endpoint_ids db ->
  fields_have_owner db ->
  meta_data_parses db ->
  exists snap db',
    data_export db = (db, inr snap)
    /\ data_import snap db0 = (db', inr tt)
    /\ rows (base_endpoints db') = rows (base_endpoints db)
    /\ rows (relative_endpoints db') = map reserialized (rows (relative_endpoints db))
    /\ (meta_data_canonical db ->
        rows (relative_endpoints db') = rows (relative_endpoints db))
    /\ ((forall j, json_loads (json_dumps j) = Some j) ->
        Forall2 same_endpoint (rows (relative_endpoints db'))
          (rows (relative_endpoints db)))
    /\ Permutation (rows (fields db')) (rows (fields db))
    /\ rows (schemas db') = rows (schemas db)
    /\ rows (schema_datas db') = rows (schema_datas db).
Proof.
  intros Hnd Hown Hparse.
  destruct (relative_endpoints_detail_ok db (rows (relative_endpoints db)) Hparse)
    as [ds [Hds [Hm Hf]]].
  eexists. 
  assert (Hex : data_export db
                = (db, inr (mkSnapshot
                              (map base_endpoint_detail (rows (base_endpoints db)))
                              ds
                              (map (schema_detail db) (rows (schemas db)))
                              (map field_detail (rows (fields db)))
                              (map schema_data_detail (rows (schema_datas db)))))).
  { unfold data_export, bind, read, lift, ret. now rewrite Hds. }
  destruct (data_import_rows
              (mkSnapshot
                 (map base_endpoint_detail (rows (base_endpoints db)))
                 ds
                 (map (schema_detail db) (rows (schemas db)))
                 (map field_detail (rows (fields db)))
                 (map schema_data_detail (rows (schema_datas db)))) db0)
    as [db' [Him [Hb [Hr [Hfl [Hs Hsd]]]]]].
  exists db'. simpl in Hb, Hr, Hfl, Hs, Hsd.
  split; [exact Hex|]. split; [exact Him|].
  split; [rewrite Hb; apply import_base_endpoint_detail|].
  assert (Hrows : rows (relative_endpoints db')
                  = map reserialized (rows (relative_endpoints db)))
    by (rewrite Hr; exact Hm).
  split; [exact Hrows|].
  split; [intros Hc; rewrite Hrows; now apply reserialized_canonical|].
  split; [intros Hlaw; rewrite Hrows; now apply reserialized_same|].
  split; [rewrite Hfl, Hf; now apply group_by_owner_all|].
  split; [rewrite Hs; apply import_schema_detail|].
  rewrite Hsd. apply import_schema_data_detail.
Qed.

End RoundTrip.

Lemma db_stored_invariants :
  unique_relative_endpoint_ids db_stored
  /\ fields_have_owner db_stored
  /\ meta_data_parses (json := sample_json) db_stored.
Proof.
  split; [|split].
  - unfold unique_relative_endpoint_ids. simpl.
    repeat constructor; simpl; intuition discriminate.
  - intros f Hf. simpl in Hf.
    destruct Hf as [<-|[<-|[<-|[]]]]; simpl.
    + eexists (mkRelativeEndpoint 2 _ _ _ _ _). split; [right; left; reflexivity|reflexivity].
    + eexists (mkRelativeEndpoint 1 _ _ _ _ _). split; [left; reflexivity|reflexivity].
    + eexists (mkRelativeEndpoint 2 _ _ _ _ _). split; [right; left; reflexivity|reflexivity].
  - intros r _. discriminate.
Defined.

Lemma export_import_round_trip_witness :
  exists snap db',
    data_export (models := sample_models) (json := sample_json) db_stored
    = (db_stored, inr snap)
    /\ data_import snap db_stored = (db', inr tt)
    /\ rows (base_endpoints db') = rows (base_endpoints db_stored)
    /\ rows (relative_endpoints db') = rows (relative_endpoints db_stored)
    /\ Permutation (rows (fields db')) (rows (fields db_stored))
    /\ rows (schemas db') = rows (schemas db_stored)
    /\ rows (schema_datas db') = rows (schema_datas db_stored).
Proof.
  destruct db_stored_invariants as [Hnd [Hown Hparse]].
  destruct (@export_import_round_trip sample_models sample_json db_stored db_stored
              Hnd Hown Hparse)
    as [snap [db' [Hex [Him [Hb [Hr [_ [_ [Hp [Hs Hsd]]]]]]]]]].
  exists snap, db'. repeat split; assumption.
Defined.

(** C7 (as stated) fails.  After [endpoint_schema_update] has stored
    the [meta_data] text "[1,2]" on endpoint 1, the state has distinct
    endpoint ids, owned fields and parseable [meta_data]; export and
    import of it return, but the endpoint comes back with the text
    "[1, 2]", and the [Field] rows come back in another order.  After
    the same request with the text "oops", [data_export] raises
    [JSONDecodeError] and there is no snapshot to import. *)
Lemma export_import_not_identity :
  let db1 := fst (endpoint_schema_update (models := sample_models)
                    update_in_compact_meta db_arrays) in
  let db2 := fst (endpoint_schema_update (models := sample_models)
                    update_in_no_json_meta db_arrays) in
  (exists r, snd (endpoint_schema_update (models := sample_models)
                    update_in_compact_meta db_arrays) = inr r)
  /\ unique_relative_endpoint_ids db1
  /\ fields_have_owner db1
  /\ meta_data_parses (json := json_int_arrays) db1
  /\ (exists snap db',
        data_export (models := sample_models) (json := json_int_arrays) db1
        = (db1, inr snap)
        /\ data_import snap db1 = (db', inr tt)
        /\ rows (relative_endpoints db1)
           = [mkRelativeEndpoint 1 1 "/users" "GET" "^/users$" "[1,2]";
              mkRelativeEndpoint 2 1 "/users/{id}" "GET" "^/users/(?P<id>[^/]+)$" "[1]"]
        /\ rows (relative_endpoints db')
           = [mkRelativeEndpoint 1 1 "/users" "GET" "^/users$" "[1, 2]";
              mkRelativeEndpoint 2 1 "/users/{id}" "GET" "^/users/(?P<id>[^/]+)$" "[1]"]
        /\ rows (relative_endpoints db') <> rows (relative_endpoints db1)
        /\ rows (fields db1)
           = [mkField 1 2 "uid" "id" "URL_PARAM" false;
              mkField 2 1 "page" "p" "QUERY_PARAM" false;
              mkField 4 2 "user" "User" "SCHEMA" false]
        /\ rows (fields db')
           = [mkField 2 1 "page" "p" "QUERY_PARAM" false;
              mkField 1 2 "uid" "id" "URL_PARAM" false;
              mkField 4 2 "user" "User" "SCHEMA" false]
        /\ rows (fields db') <> rows (fields db1))
  /\ (exists r, snd (endpoint_schema_update (models := sample_models)
                       update_in_no_json_meta db_arrays) = inr r)
  /\ data_export (models := sample_models) (json := json_int_arrays) db2
     = (db2, inl JSONDecodeError).
Proof.
  cbv zeta.
  split; [eexists; reflexivity|].
  split; [repeat constructor; simpl; intuition discriminate|].
  split.
  { intros f Hf. vm_compute in Hf.
    destruct Hf as [<-|[<-|[<-|[]]]].
    - exists (mkRelativeEndpoint 2 1 "/users/{id}" "GET" "^/users/(?P<id>[^/]+)$" "[1]").
      split; [right; left; reflexivity|reflexivity].
    - exists (mkRelativeEndpoint 1 1 "/users" "GET" "^/users$" "[1,2]").
      split; [left; reflexivity|reflexivity].
    - exists (mkRelativeEndpoint 2 1 "/users/{id}" "GET" "^/users/(?P<id>[^/]+)$" "[1]").
      split; [right; left; reflexivity|reflexivity]. }
  split.
  { intros r Hr. vm_compute in Hr. destruct Hr as [<-|[<-|[]]]; discriminate. }
  split.
  { eexists. eexists. split; [reflexivity|]. split; [reflexivity|].
    repeat split; try reflexivity; discriminate. }
  split; [eexists; reflexivity|].
  reflexivity.
Qed.

(** The sample configuration exported and imported: the fields come
    back grouped by endpoint, and the keys are those of the snapshot. *)
Example export_import_db_stored :
  match data_export (models := sample_models) (json := sample_json) db_stored with
  | (_, inr snap) => rows (fields (fst (data_import snap db_stored)))
  | (_, inl _) => []
  end
  = [mkField 2 1 "page" "p" "QUERY_PARAM" false;
     mkField 1 2 "uid" "id" "URL_PARAM" false;
     mkField 4 2 "user" "User" "SCHEMA" false].
Proof. reflexivity. Qed.

(* ================================================================== *)
(** * Further properties: the life cycle of a relative endpoint *)
(* ================================================================== *)

Lemma NoDup_snoc (A : Type) (l : list A) (a : A) :
  NoDup l -> ~ In a l -> NoDup (l ++ [a]).
Proof.
  intros Hnd Hin. apply Permutation_NoDup with (l := a :: l).
  - apply Permutation_cons_append.
  - now constructor.
Qed.

Lemma exists_where_false (R : Type) (p : R -> bool) (t : Table R) :
  exists_where p t = false <-> forall r, In r (rows t) -> p r = false.
Proof.
  unfold exists_where. split.
  - intros H r Hin. destruct (p r) eqn:E; [|reflexivity].
    assert (existsb p (rows t) = true) by (apply existsb_exists; eauto). congruence.
  - intros H. apply not_true_is_false. intros Hex.
    apply existsb_exists in Hex. destruct Hex as [r [Hin Hp]].
    rewrite (H r Hin) in Hp. discriminate.
Qed.

Lemma same_url_key (b : Z) (endpoint method : string) (r : RelativeEndpoint) :
  same_url b endpoint method r = true <-> url_key r = (b, endpoint, method).
Proof.
  rewrite same_url_true. unfold url_key. split.
  - intros [-> [-> ->]]. reflexivity.
  - intros H. injection H as -> -> ->. auto.
Qed.

(** Rewriting the one row a filter selects, to a key no row has, keeps
    the keys distinct. *)
Lemma NoDup_map_update_one (A K : Type) (key : A -> K) (p : A -> bool) (f : A -> A)
    (l : list A) (x : A) :
  NoDup (map key l) ->
  filter p l = [x] ->
  ~ In (key (f x)) (map key l) ->
  NoDup (map key (map (fun a => if p a then f a else a) l)).
Proof.
  revert x.
  induction l as [|a l IH]; simpl; intros x Hnd Hf Hnew; [constructor|].
  inversion Hnd as [|? ? Hnotin Hnd']; subst.
  destruct (p a) eqn:Ea.
  - injection Hf as -> Hrest.
    assert (Hsame : map (fun a => if p a then f a else a) l = l).
    { rewrite <- (map_id l) at 2. apply map_ext_in. intros b Hb.
      destruct (p b) eqn:Eb; [|reflexivity].
      assert (Hin : In b (filter p l)) by (apply filter_In; auto).
      rewrite Hrest in Hin. destruct Hin. }
    rewrite Hsame. constructor; [|assumption].
    intros Hin. apply Hnew. now right.
  - constructor.
    + intros Hin. rewrite map_map in Hin. apply in_map_iff in Hin.
      destruct Hin as [b [Hb Hbin]].
      destruct (p b) eqn:Eb.
      * assert (Hbx : In b (filter p l)) by (apply filter_In; auto).
        rewrite Hf in Hbx. destruct Hbx as [<-|[]].
        apply Hnew. left. now symmetry.
      * apply Hnotin. rewrite <- Hb. now apply in_map.
    + apply (IH x); auto.
Qed.

Section EndpointLifecycleFacts.
Context {models : Models} {endpoint_model : EndpointModel}.

(** The three outcomes of [relative_endpoint_add]. *)
Lemma relative_endpoint_add_cases (data : EndpointAddIn) (db : DB) :
  (str_in (ea_method data) methods = false
   /\ relative_endpoint_add data db = (db, inl (NotAllowed invalid_method_msg)))
  \/ (str_in (ea_method data) methods = true
      /\ exists e, format_and_regex_endpoint (ea_endpoint data) = inl e
                   /\ relative_endpoint_add data db = (db, inl e))
  \/ (str_in (ea_method data) methods = true
      /\ exists endpoint regex_endpoint,
           format_and_regex_endpoint (ea_endpoint data) = inr (endpoint, regex_endpoint)
           /\ ((exists_where (same_url (ea_id data) endpoint (ea_method data))
                  (relative_endpoints db) = true
                /\ relative_endpoint_add data db
                   = (db, inl (NotAllowed "Endpoint with same method already exists")))
               \/ (exists_where (same_url (ea_id data) endpoint (ea_method data))
                     (relative_endpoints db) = false
                   /\ relative_endpoint_add data db
                      = (set_relative_endpoints
                           (mkTable
                              (rows (relative_endpoints db)
                               ++ [mkRelativeEndpoint (next_pk re_id (relative_endpoints db))
                                     (ea_id data) endpoint (ea_method data) regex_endpoint
                                     DEFAULT_META_DATA])
                              (next_pk re_id (relative_endpoints db))) db,
                         inr (mkRelativeEndpoint (next_pk re_id (relative_endpoints db))
                                (ea_id data) endpoint (ea_method data) regex_endpoint
                                DEFAULT_META_DATA))))).
Proof.
  unfold relative_endpoint_add.
  destruct (str_in (ea_method data) methods) eqn:Em; simpl; [|left; auto].
  right. destruct (format_and_regex_endpoint (ea_endpoint data)) as [e|[p rg]] eqn:Ef.
  - left. split; [reflexivity|]. eauto.
  - right. split; [reflexivity|]. exists p, rg. split; [reflexivity|].
    unfold bind, read.
    destruct (exists_where _ (relative_endpoints db)) eqn:Ex; [left|right]; auto.
Qed.


(** X2.  After [relative_endpoint_add] has returned, a second call for
    the same base endpoint and method whose path normalizes to the same
    result (the same payload, for one) raises [NotAllowed] "Endpoint
    with same method already exists" and writes nothing. *)
Theorem relative_endpoint_add_twice (data data' : EndpointAddIn) (db db1 : DB)
    (r : RelativeEndpoint) :
  relative_endpoint_add data db = (db1, inr r) ->
  ea_id data' = ea_id data ->
  ea_method data' = ea_method data ->
  format_and_regex_endpoint (ea_endpoint data')
  = format_and_regex_endpoint (ea_endpoint data) ->
  relative_endpoint_add data' db1
  = (db1, inl (NotAllowed "Endpoint with same method already exists")).
Proof.
  intros Hrun Hid Hm Hf.
  destruct (relative_endpoint_add_cases data db)
    as [[_ H]|[[_ [e [_ H]]]|[Hin [p [rg [Hfmt [[_ H]|[_ H]]]]]]]];
    rewrite H in Hrun; try discriminate.
  injection Hrun as <- <-.
  destruct (relative_endpoint_add_cases data'
              (set_relative_endpoints
                 (mkTable
                    (rows (relative_endpoints db)
                     ++ [mkRelativeEndpoint (next_pk re_id (relative_endpoints db))
                           (ea_id data) p (ea_method data) rg DEFAULT_META_DATA])
                    (next_pk re_id (relative_endpoints db))) db))
    as [[Hn _]|[[_ [e [He _]]]|[_ [p' [rg' [Hfmt' [[_ H']|[Hex _]]]]]]]].
  - rewrite Hm in Hn. congruence.
  - rewrite Hf, Hfmt in He. discriminate.
  - exact H'.
  - exfalso. rewrite Hf, Hfmt in Hfmt'. injection Hfmt' as <- <-.
    rewrite exists_where_false in Hex.
    specialize (Hex (mkRelativeEndpoint (next_pk re_id (relative_endpoints db))
                       (ea_id data) p (ea_method data) rg DEFAULT_META_DATA)).
    simpl in Hex. rewrite Hid, Hm in Hex.
    assert (Hs : same_url (ea_id data) p (ea_method data)
                   (mkRelativeEndpoint (next_pk re_id (relative_endpoints db))
                      (ea_id data) p (ea_method data) rg DEFAULT_META_DATA) = true)
      by (apply same_url_key; reflexivity).
    rewrite Hex in Hs; [discriminate|].
    apply in_or_app. right. now left.
Qed.

(** X3.  [relative_endpoint_add] keeps the endpoints' (base endpoint,
    path, method) triples distinct and their ids distinct, whatever its
    outcome; when it returns, the table has grown by exactly the
    returned row, whose id is above every id that was there. *)
Theorem relative_endpoint_add_keeps_unique (data : EndpointAddIn) (db : DB) :
  unique_urls db ->
  unique_relative_endpoint_ids db ->
  let db' := fst (relative_endpoint_add data db) in
  unique_urls db'
  /\ unique_relative_endpoint_ids db'
  /\ forall r, snd (relative_endpoint_add data db) = inr r ->
       rows (relative_endpoints db') = rows (relative_endpoints db) ++ [r]
       /\ forall x, In x (rows (relative_endpoints db)) -> re_id x < re_id r.
Proof.
  intros Hu Hi.
  destruct (relative_endpoint_add_cases data db)
    as [[_ H]|[[_ [e [_ H]]]|[_ [p [rg [_ [[_ H]|[Hex H]]]]]]]];
    rewrite H; simpl; try (repeat split; auto; discriminate).
  assert (Hfresh : forall x, In x (rows (relative_endpoints db)) ->
                             re_id x < next_pk re_id (relative_endpoints db))
    by (intros x Hx; now apply next_pk_fresh).
  split; [|split].
  - unfold unique_urls. simpl. rewrite map_app. simpl. apply NoDup_snoc; [exact Hu|].
    intros Hin. apply in_map_iff in Hin. destruct Hin as [x [Hk Hx]].
    rewrite exists_where_false in Hex. specialize (Hex x Hx).
    apply same_url_key in Hk. simpl in Hk. congruence.
  - unfold unique_relative_endpoint_ids. simpl. rewrite map_app. simpl.
    apply NoDup_snoc; [exact Hi|].
    intros Hin. apply in_map_iff in Hin. destruct Hin as [x [Hk Hx]].
    specialize (Hfresh x Hx). lia.
  - intros r Hr. injection Hr as <-. split; [reflexivity|]. exact Hfresh.
Qed.

(** X4.  [relative_endpoint_update] keeps the endpoints' (base endpoint,
    path, method) triples distinct, and keeps the ids of the table as
    they are, whatever its outcome. *)
Theorem relative_endpoint_update_keeps_unique (data : EndpointUpdateIn) (db : DB) :
  unique_urls db ->
  let db' := fst (relative_endpoint_update data db) in
  unique_urls db'
  /\ map re_id (rows (relative_endpoints db')) = map re_id (rows (relative_endpoints db)).
Proof.
  intros Hu. unfold relative_endpoint_update, bind, lift, read, write, raise.
  destruct (orm_get _ (relative_endpoints db)) as [e|r] eqn:Hget; [simpl; auto|].
  destruct (format_and_regex_endpoint (eu_endpoint data)) as [e|[p rg]];
    [simpl; auto|].
  destruct (exists_where _ (relative_endpoints db)) eqn:Hex; [simpl; auto|].
  simpl. split.
  - unfold unique_urls. simpl.
    destruct (orm_get_inr _ _ Hget) as [Hf _].
    apply (@NoDup_map_update_one _ _ url_key (fun x => re_id x =? eu_id data)
             (overwrite_endpoint p (eu_method data) rg)
             (rows (relative_endpoints db)) r Hu Hf).
    intros Hin. apply in_map_iff in Hin. destruct Hin as [x [Hk Hx]].
    rewrite exists_where_false in Hex. specialize (Hex x Hx).
    apply same_url_key in Hk. simpl in Hk. congruence.
  - rewrite map_map. apply map_ext. intros x.
    destruct (re_id x =? eu_id data); reflexivity.
Qed.

End EndpointLifecycleFacts.


Lemma relative_endpoint_add_twice_witness :
  relative_endpoint_add (models := sample_models) (endpoint_model := sample_endpoint_model)
    (mkEndpointAddIn 1 "/items" "GET")
    (set_relative_endpoints
       (mkTable [mkRelativeEndpoint 1 1 "/users" "GET" "^/users$" "{}";
                 mkRelativeEndpoint 2 1 "/items" "GET" "^/items$" "{}"] 2)
       db_one_endpoint)
  = (set_relative_endpoints
       (mkTable [mkRelativeEndpoint 1 1 "/users" "GET" "^/users$" "{}";
                 mkRelativeEndpoint 2 1 "/items" "GET" "^/items$" "{}"] 2)
       db_one_endpoint,
     inl (NotAllowed "Endpoint with same method already exists")).
Proof.
  apply (@relative_endpoint_add_twice sample_models sample_endpoint_model
           (mkEndpointAddIn 1 "items" "GET") (mkEndpointAddIn 1 "/items" "GET")
           db_one_endpoint _
           (mkRelativeEndpoint 2 1 "/items" "GET" "^/items$" "{}"));
    reflexivity.
Defined.

Lemma db_one_endpoint_unique :
  unique_urls db_one_endpoint /\ unique_relative_endpoint_ids db_one_endpoint.
Proof.
  split; repeat constructor; simpl; tauto.
Defined.

Lemma relative_endpoint_add_keeps_unique_witness :
  let db' := fst (relative_endpoint_add (models := sample_models)
                    (endpoint_model := sample_endpoint_model)
                    (mkEndpointAddIn 1 "items" "GET") db_one_endpoint) in
  unique_urls db' /\ unique_relative_endpoint_ids db'.
Proof.
  destruct db_one_endpoint_unique as [Hu Hi].
  destruct (@relative_endpoint_add_keeps_unique sample_models sample_endpoint_model
              (mkEndpointAddIn 1 "items" "GET") db_one_endpoint Hu Hi) as [H1 [H2 _]].
  split; assumption.
Defined.

Lemma relative_endpoint_update_keeps_unique_witness :
  unique_urls (fst (relative_endpoint_update (models := sample_models)
                      (mkEndpointUpdateIn 1 "people" "GET") db_one_endpoint)).
Proof.
  destruct db_one_endpoint_unique as [Hu _].
  exact (proj1 (@relative_endpoint_update_keeps_unique sample_models
                  (mkEndpointUpdateIn 1 "people" "GET") db_one_endpoint Hu)).
Defined.

Section RaiseWithoutWrite.
Context {models : Models} {endpoint_model : EndpointModel}.

(** X5.  [base_endpoint_add], [relative_endpoint_add] and
    [relative_endpoint_update] write nothing when they raise: whatever
    the exception, the database is the one the call found. *)
Theorem raise_without_write (endpoint : string) (add : EndpointAddIn)
    (upd : EndpointUpdateIn) (db db' : DB) (e : exn) :
  base_endpoint_add endpoint db = (db', inl e)
  \/ relative_endpoint_add add db = (db', inl e)
  \/ relative_endpoint_update upd db = (db', inl e) ->
  db' = db.
Proof.
  intros [H|[H|H]].
  - unfold base_endpoint_add, base_endpoint_get_or_create in H.
    destruct (orm_get _ (base_endpoints db)) as [[]|r]; simpl in H; congruence.
  - destruct (relative_endpoint_add_cases add db)
      as [[_ H']|[[_ [x [_ H']]]|[_ [p [rg [_ [[_ H']|[_ H']]]]]]]];
      rewrite H' in H; congruence.
  - unfold relative_endpoint_update, bind, lift, read, write, raise in H.
    destruct (orm_get _ (relative_endpoints db)) as [x|r]; [congruence|].
    destruct (format_and_regex_endpoint (eu_endpoint upd)) as [x|[p rg]]; [congruence|].
    destruct (exists_where _ (relative_endpoints db)); congruence.
Qed.

End RaiseWithoutWrite.

Lemma raise_without_write_witness :
  fst (relative_endpoint_update (models := sample_models)
         (mkEndpointUpdateIn 7 "users" "GET") db_one_endpoint)
  = db_one_endpoint.
Proof.
  apply (@raise_without_write sample_models sample_endpoint_model "api"
           (mkEndpointAddIn 1 "items" "GET") (mkEndpointUpdateIn 7 "users" "GET")
           db_one_endpoint _ DoesNotExist).
  right. right. reflexivity.
Defined.

(* ---------------------------------------------------------------- *)
(** ** Deleting an endpoint *)
(* ---------------------------------------------------------------- *)

Lemma filter_filter_same (A : Type) (p : A -> bool) (l : list A) :
  filter p (filter p l) = filter p l.
Proof.
  apply filter_all. intros x Hx. apply filter_In in Hx. tauto.
Qed.

Lemma orm_get_deleted (id : Z) (l : list RelativeEndpoint) (n : Z) :
  orm_get (fun r => re_id r =? id)
    (mkTable (filter (fun r => negb (re_id r =? id)) l) n)
  = inl DoesNotExist.
Proof.
  apply orm_get_missing. simpl.
  induction l as [|x l IH]; simpl; [reflexivity|].
  destruct (re_id x =? id) eqn:E; simpl; [exact IH|].
  now rewrite E.
Qed.

(** X6.  On a database where every field has its endpoint,
    [relative_endpoint_delete] removes the endpoints with the given id
    and exactly the fields that belong to it, leaves every field with
    its endpoint, and done a second time changes nothing; an id that no
    endpoint has changes nothing at all. *)
Theorem relative_endpoint_delete_cascades (id : Z) (db : DB) :
  fields_have_owner db ->
  let db' := fst (relative_endpoint_delete id db) in
  rows (relative_endpoints db')
  = filter (fun r => negb (re_id r =? id)) (rows (relative_endpoints db))
  /\ rows (fields db')
     = filter (fun f => negb (f_relative_endpoint_id f =? id)) (rows (fields db))
  /\ fields_have_owner db'
  /\ relative_endpoint_delete id db' = (db', inr tt)
  /\ ((forall r, In r (rows (relative_endpoints db)) -> re_id r <> id) -> db' = db).
Proof.
  intros Hown. unfold relative_endpoint_delete, write. simpl fst.
  assert (Hfields : forall hit,
            hit = exists_where (fun r => re_id r =? id) (relative_endpoints db) ->
            rows (fields (if hit
                          then set_fields
                                 (delete_where (fun f => f_relative_endpoint_id f =? id)
                                    (fields db)) db
                          else db))
            = filter (fun f => negb (f_relative_endpoint_id f =? id)) (rows (fields db))).
  { intros [|] Hhit; [reflexivity|]. symmetry. apply filter_all.
    intros f Hf. apply negb_true_iff, Z.eqb_neq. intros Heq.
    destruct (Hown f Hf) as [r [Hr Hid]].
    symmetry in Hhit. rewrite exists_where_false in Hhit.
    specialize (Hhit r Hr). apply Z.eqb_neq in Hhit. congruence. }
  set (hit := exists_where (fun r => re_id r =? id) (relative_endpoints db)) in *.
  specialize (Hfields hit eq_refl).
  split; [destruct hit; reflexivity|].
  split; [destruct hit; exact Hfields|].
  split; [|split].
  - intros f Hf.
    assert (Hf' : In f (filter (fun f => negb (f_relative_endpoint_id f =? id))
                          (rows (fields db))))
      by (destruct hit; simpl in Hf; [exact Hf|rewrite <- Hfields; exact Hf]).
    apply filter_In in Hf'. destruct Hf' as [Hin Hne].
    destruct (Hown f Hin) as [r [Hr Hid]]. exists r. split; [|exact Hid].
    assert (Hr' : In r (filter (fun r => negb (re_id r =? id))
                          (rows (relative_endpoints db))))
      by (apply filter_In; split; [exact Hr|now rewrite Hid]).
    destruct hit; exact Hr'.
  - assert (Hgone : exists_where (fun r => re_id r =? id)
                      (mkTable (filter (fun r => negb (re_id r =? id))
                                  (rows (relative_endpoints db)))
                         (last_pk (relative_endpoints db))) = false).
    { apply exists_where_false. intros r Hr. simpl in Hr.
      apply filter_In in Hr. now apply negb_true_iff. }
    destruct hit; simpl; unfold delete_where; simpl;
      unfold delete_where in Hgone; rewrite Hgone;
      unfold set_relative_endpoints; simpl; now rewrite filter_filter_same.
  - intros Hnone.
    assert (Hhit : hit = false).
    { apply exists_where_false. intros r Hr. apply Z.eqb_neq. now apply Hnone. }
    rewrite Hhit. unfold set_relative_endpoints, delete_where. simpl.
    rewrite filter_all.
    + now destruct db as [b [rr rl] f s d].
    + intros r Hr. apply negb_true_iff, Z.eqb_neq. now apply Hnone.
Qed.

(** X7.  Once [relative_endpoint_delete] has run for an id, both
    [relative_endpoint_update] and [endpoint_schema_update] for that id
    raise [DoesNotExist] and write nothing, whatever else the payload
    holds. *)
Theorem deleted_endpoint_does_not_exist {models : Models} (id : Z) (db : DB)
    (endpoint method meta_data : string) (fs : list FieldIn) :
  let db' := fst (relative_endpoint_delete id db) in
  relative_endpoint_update (mkEndpointUpdateIn id endpoint method) db'
  = (db', inl DoesNotExist)
  /\ endpoint_schema_update (mkSchemaUpdateIn id fs meta_data) db'
     = (db', inl DoesNotExist).
Proof.
  unfold relative_endpoint_delete, write. simpl fst.
  unfold relative_endpoint_update, endpoint_schema_update, bind, lift.
  simpl eu_id. simpl su_id.
  destruct (exists_where _ (relative_endpoints db)); simpl relative_endpoints;
    unfold delete_where; rewrite orm_get_deleted; split; reflexivity.
Qed.

(* ================================================================== *)
(** * Further properties: the field reconciler *)
(* ================================================================== *)

(** Dropping rows keeps the keys of a table distinct. *)
Lemma distinct_keys_filter (R K : Type) (key : R -> K) (keep : R -> bool) :
  forall table : list R,
    NoDup (map key table) -> NoDup (map key (filter keep table)).
Proof.
  intros table. induction table as [|row table IH]; intros Hdistinct.
  - constructor.
  - cbn [filter]. cbn [map] in Hdistinct.
    apply NoDup_cons_iff in Hdistinct. destruct Hdistinct as [Hfresh Hrest].
    destruct (keep row); [|now apply IH].
    cbn [map]. apply NoDup_cons; [|now apply IH].
    intros Hin. apply Hfresh.
    apply in_map_iff in Hin. destruct Hin as [other [Hkey Hother]].
    apply filter_In in Hother. rewrite <- Hkey. apply in_map. tauto.
Qed.

Section KeysOk.
Variable R : Type.
Variable pk : R -> Z.

Lemma keys_ok_delete_where (p : R -> bool) (t : Table R) :
  keys_ok pk t -> keys_ok pk (delete_where p t).
Proof.
  intros [Hnd Hle]. split; simpl.
  - now apply distinct_keys_filter.
  - intros r Hr. apply filter_In in Hr. apply Hle. tauto.
Qed.

(** Tables with the same keys and the same mark are sound together. *)
Lemma keys_ok_same_keys (t t' : Table R) :
  map pk (rows t') = map pk (rows t) -> last_pk t' = last_pk t ->
  keys_ok pk t -> keys_ok pk t'.
Proof.
  intros Hk Hl [Hnd Hle]. split; [now rewrite Hk|].
  intros r Hr. rewrite Hl.
  assert (Hin : In (pk r) (map pk (rows t))) by (rewrite <- Hk; now apply in_map).
  apply in_map_iff in Hin. destruct Hin as [r0 [Heq Hr0]].
  rewrite <- Heq. now apply Hle.
Qed.

Lemma keys_ok_create (mk : Z -> R) (t : Table R) :
  (forall i, pk (mk i) = i) ->
  keys_ok pk t -> keys_ok pk (snd (create pk mk t)).
Proof.
  intros Hpk [Hnd Hle]. unfold create. simpl. split; simpl.
  - rewrite map_app. simpl. apply NoDup_snoc; [assumption|].
    rewrite Hpk. intros Hin. apply in_map_iff in Hin. destruct Hin as [r [Hr Hrin]].
    pose proof (next_pk_fresh pk t r Hrin). lia.
  - intros r Hr. apply in_app_or in Hr. destruct Hr as [Hr|[<-|[]]].
    + pose proof (next_pk_fresh pk t r Hr). lia.
    + rewrite Hpk. lia.
Qed.

Lemma keys_ok_bulk_create (mks : list (Z -> R)) :
  (forall mk i, In mk mks -> pk (mk i) = i) ->
  forall t, keys_ok pk t -> keys_ok pk (bulk_create pk mks t).
Proof.
  induction mks as [|mk mks IH]; intros Hpk t Hok; simpl; [assumption|].
  apply IH; [intros; apply Hpk; now right|].
  apply keys_ok_create; [intros; apply Hpk; now left|assumption].
Qed.

End KeysOk.

Section ReconcilerMore.
Context {models : Models}.

(** An unknown endpoint id stops the call before the first write. *)
Lemma endpoint_schema_update_missing (data : SchemaUpdateIn) (db : DB) (e : exn) :
  orm_get (fun r => re_id r =? su_id data) (relative_endpoints db) = inl e ->
  endpoint_schema_update data db = (db, inl e).
Proof.
  intros H. unfold endpoint_schema_update, bind, lift. now rewrite H.
Qed.

Lemma update_fields_app (a b : list FieldIn) :
  forall db,
    update_fields (a ++ b) db
    = match update_fields a db with
      | (db', inl e) => (db', inl e)
      | (db', inr _) => update_fields b db'
      end.
Proof.
  induction a as [|f a IH]; intros db; simpl; [reflexivity|].
  destruct (fi_id f); [|reflexivity].
  unfold bind, write. apply IH.
Qed.

(** The updates keep the owner of every row. *)
Lemma update_fields_owners (fs : list FieldIn) :
  forall db,
    map f_relative_endpoint_id (rows (fields (fst (update_fields fs db))))
    = map f_relative_endpoint_id (rows (fields db)).
Proof.
  induction fs as [|f fs IH]; intros db; simpl; [reflexivity|].
  destruct (fi_id f) as [i|]; [|reflexivity].
  unfold bind, write.
  set (db1 := set_fields _ db). specialize (IH db1).
  destruct (update_fields fs db1) as [db2 [e|[]]]; simpl in *;
    rewrite IH, map_map; apply map_ext; intros r;
    destruct (f_id r =? i); reflexivity.
Qed.

(** X8.  When the validation has passed and the first of the entries
    with a truthy [isChanged] that carries no id comes after some that
    do, [endpoint_schema_update] raises [KeyError] for 'id' having
    already applied the deletion and the updates before that entry:
    the [Field] rows left are the surviving rows with those updates,
    no row is created and the [meta_data] is not saved. *)
Theorem endpoint_schema_update_update_without_id (data : SchemaUpdateIn) (db : DB)
    (endpoint : RelativeEndpoint) (pre post : list FieldIn) (e : FieldIn) :
  orm_get (fun r => re_id r =? su_id data) (relative_endpoints db) = inr endpoint ->
  (forall f, In f (su_fields data) -> fi_isChanged f <> None ->
     check_field (map s_name (rows (schemas db))) (url_params endpoint) f = None) ->
  filter marked_changed (su_fields data) = pre ++ e :: post ->
  (forall f, In f pre -> fi_id f <> None) ->
  fi_id e = None ->
  exists db',
    endpoint_schema_update data db = (db', inl (KeyError "id"))
    /\ rows (fields db')
       = map (spec_updated_row pre)
           (spec_kept (su_id data) (incoming_ids (su_fields data)) (rows (fields db)))
    /\ last_pk (fields db') = last_pk (fields db)
    /\ relative_endpoints db' = relative_endpoints db.
Proof.
  intros Hget Hcheck Hsplit Hpre He.
  rewrite (@endpoint_schema_update_unfold _ _ _ _ Hget).
  rewrite (validate_fields_ok _ _ _ Hcheck), Hsplit.
  rewrite update_fields_app, (update_fields_ok pre Hpre).
  simpl update_fields. rewrite He. unfold raise.
  eexists. split; [reflexivity|]. simpl.
  rewrite <- (orm_get_id _ _ Hget).
  unfold spec_kept.
  rewrite (filter_ext
             (fun r => negb ((f_relative_endpoint_id r =? re_id endpoint)
                             && negb (id_in (f_id r) (incoming_ids (su_fields data)))))
             (fun r => negb (f_relative_endpoint_id r =? re_id endpoint)
                       || id_in (f_id r) (incoming_ids (su_fields data))))
    by (intros r; now rewrite negb_andb, negb_involutive).
  repeat split.
Qed.

(** X9.  [endpoint_schema_update] keeps the primary keys of the [Field]
    table sound (no id twice, none above the auto-increment mark),
    whatever the payload and whatever the outcome. *)
Theorem endpoint_schema_update_keeps_keys (data : SchemaUpdateIn) (db : DB) :
  field_keys_ok db ->
  field_keys_ok (fst (endpoint_schema_update data db)).
Proof.
  intros Hok. change (keys_ok f_id (fields db)) in Hok.
  change (keys_ok f_id (fields (fst (endpoint_schema_update data db)))).
  destruct (orm_get (fun r => re_id r =? su_id data) (relative_endpoints db))
    as [e|endpoint] eqn:Hget.
  - now rewrite (endpoint_schema_update_missing data db Hget).
  - rewrite (@endpoint_schema_update_unfold _ _ _ _ Hget).
    set (db1 := set_fields _ db).
    assert (Hok1 : keys_ok f_id (fields db1))
      by (unfold db1, delete_unlisted_fields; simpl; now apply keys_ok_delete_where).
    destruct (validate_fields _ _ _ _ _) as [e|[tc nf]]; [exact Hok1|].
    pose proof (update_fields_keys tc db1) as Hk. simpl in Hk.
    destruct (update_fields tc db1) as [db2 [e|u]]; simpl in Hk;
      destruct Hk as [Hkeys [Hlast _]];
      assert (Hok2 : keys_ok f_id (fields db2))
        by (now apply (@keys_ok_same_keys _ f_id (fields db1)));
      [exact Hok2|].
    simpl. apply keys_ok_bulk_create; [|exact Hok2].
    intros mk i Hmk. apply in_map_iff in Hmk. destruct Hmk as [g [<- _]]. reflexivity.
Qed.

(** X10.  [endpoint_schema_update] keeps the ids of the relative
    endpoints as they are and leaves every field with an endpoint that
    is stored, whatever the payload and whatever the outcome. *)
Theorem endpoint_schema_update_keeps_owners (data : SchemaUpdateIn) (db : DB) :
  fields_have_owner db ->
  let db' := fst (endpoint_schema_update data db) in
  map re_id (rows (relative_endpoints db')) = map re_id (rows (relative_endpoints db))
  /\ fields_have_owner db'.
Proof.
  intros Hown.
  assert (Hlift : forall db',
            map re_id (rows (relative_endpoints db'))
            = map re_id (rows (relative_endpoints db)) ->
            (forall o, In o (map f_relative_endpoint_id (rows (fields db'))) ->
                       In o (map re_id (rows (relative_endpoints db)))) ->
            map re_id (rows (relative_endpoints db'))
            = map re_id (rows (relative_endpoints db))
            /\ fields_have_owner db').
  { intros db' Hids Hsub. split; [exact Hids|].
    intros f Hf. specialize (Hsub _ (in_map f_relative_endpoint_id _ _ Hf)).
    rewrite <- Hids in Hsub. apply in_map_iff in Hsub.
    destruct Hsub as [r [Hr Hrin]]. eauto. }
  assert (Hold : forall o, In o (map f_relative_endpoint_id (rows (fields db))) ->
                           In o (map re_id (rows (relative_endpoints db)))).
  { intros o Ho. apply in_map_iff in Ho. destruct Ho as [f [<- Hf]].
    destruct (Hown f Hf) as [r [Hr Hid]]. rewrite <- Hid. now apply in_map. }
  destruct (orm_get (fun r => re_id r =? su_id data) (relative_endpoints db))
    as [e|endpoint] eqn:Hget.
  - rewrite (endpoint_schema_update_missing data db Hget). simpl.
    apply Hlift; auto.
  - rewrite (@endpoint_schema_update_unfold _ _ _ _ Hget).
    set (db1 := set_fields _ db).
    assert (Hsub1 : forall o, In o (map f_relative_endpoint_id (rows (fields db1))) ->
                              In o (map re_id (rows (relative_endpoints db)))).
    { intros o Ho. apply Hold. apply in_map_iff in Ho. destruct Ho as [f [<- Hf]].
      unfold db1 in Hf. simpl in Hf. apply filter_In in Hf. apply in_map. tauto. }
    destruct (validate_fields _ _ _ _ _) as [e|[tc nf]]; [apply Hlift; auto|].
    pose proof (update_fields_keys tc db1) as Hk.
    pose proof (update_fields_owners tc db1) as Ho2.
    simpl in Hk.
    destruct (update_fields tc db1) as [db2 [e|u]]; simpl in Hk; simpl fst in Ho2;
      destruct Hk as [_ [_ [_ [Hrel _]]]].
    + simpl. apply Hlift; [rewrite Hrel; reflexivity|].
      intros o Ho. apply Hsub1. now rewrite <- Ho2.
    + cbv zeta. cbn [fst]. apply Hlift.
      * unfold set_relative_endpoints, set_fields.
        cbn [relative_endpoints]. rewrite Hrel.
        rewrite (@save_relative_endpoint_rows _ (su_meta_data data) _ _ Hget).
        cbn [rows]. rewrite map_map. apply map_ext. intros r.
        destruct (re_id r =? su_id data); reflexivity.
      * unfold set_relative_endpoints, set_fields. cbn [fields].
        intros o Ho. rewrite bulk_create_rows in Ho.
        -- rewrite map_app in Ho. apply in_app_or in Ho. destruct Ho as [Ho|Ho].
           ++ apply Hsub1. now rewrite <- Ho2.
           ++ apply in_map_iff in Ho. destruct Ho as [f [<- Hf]].
              assert (Hf' : f_relative_endpoint_id f = su_id data).
              { clear - Hf. revert Hf. generalize (next_pk f_id (fields db2)).
                induction nf as [|g nf IH]; simpl; intros i Hf; [destruct Hf|].
                destruct Hf as [<-|Hf]; [reflexivity|eauto]. }
              rewrite Hf'. destruct (orm_get_inr _ _ Hget) as [_ [Hin Hp]].
              apply Z.eqb_eq in Hp. rewrite <- Hp. now apply in_map.
        -- intros mk i Hmk. apply in_map_iff in Hmk. destruct Hmk as [g [<- _]].
           reflexivity.
Qed.

(** A row whose id no update carries is not touched by the updates. *)
Lemma spec_updated_row_untouched (updates : list FieldIn) (r : Field) :
  (forall f, In f updates -> fi_id f <> Some (f_id r)) ->
  spec_updated_row updates r = r.
Proof.
  unfold spec_updated_row. induction updates as [|f updates IH]; intros H; simpl;
    [reflexivity|].
  assert (Hf : spec_update_row f r = r).
  { unfold spec_update_row. destruct (fi_id f) as [i|] eqn:E; [|reflexivity].
    destruct (f_id r =? i) eqn:Ei; [|reflexivity].
    apply Z.eqb_eq in Ei. exfalso. apply (H f (or_introl eq_refl)). congruence. }
  rewrite Hf. apply IH. intros g Hg. apply H. now right.
Qed.

(** X11.  When [endpoint_schema_update] returns, every [Field] row that
    survives the deletion (a row of another endpoint, or a row whose id
    is among the positive incoming ids) and whose id is carried by no
    entry with a truthy [isChanged] is still stored, unchanged. *)
Theorem endpoint_schema_update_frame (data : SchemaUpdateIn) (db : DB)
    (endpoint : RelativeEndpoint) (r : Field) :
  orm_get (fun x => re_id x =? su_id data) (relative_endpoints db) = inr endpoint ->
  (forall f, In f (su_fields data) -> fi_isChanged f <> None ->
     check_field (map s_name (rows (schemas db))) (url_params endpoint) f = None) ->
  (forall f, In f (su_fields data) -> fi_isChanged f = Some true -> fi_id f <> None) ->
  In r (rows (fields db)) ->
  f_relative_endpoint_id r <> su_id data
  \/ (exists e, In e (su_fields data) /\ fi_id e = Some (f_id r) /\ 0 < f_id r) ->
  (forall f, In f (su_fields data) -> fi_isChanged f = Some true ->
             fi_id f <> Some (f_id r)) ->
  In r (rows (fields (fst (endpoint_schema_update data db)))).
Proof.
  intros Hget Hcheck Hids Hin Hkept Hfree.
  rewrite (endpoint_schema_update_success data db Hget Hcheck Hids).
  simpl fst. simpl fields.
  rewrite bulk_create_rows.
  - apply in_or_app. left. simpl.
    rewrite <- (@spec_updated_row_untouched
                  (filter marked_changed (su_fields data)) r).
    + apply in_map. unfold spec_kept. apply filter_In. split; [assumption|].
      apply orb_true_iff. destruct Hkept as [Hne|Hex].
      * left. now apply negb_true_iff, Z.eqb_neq.
      * right. apply id_in_true. now apply incoming_ids_in.
    + intros f Hf. apply filter_In in Hf. destruct Hf as [Hfin Hm].
      apply Hfree; [assumption|]. now apply marked_changed_true.
  - intros mk i Hmk. apply in_map_iff in Hmk. destruct Hmk as [g [<- _]]. reflexivity.
Qed.

End ReconcilerMore.

Lemma db_two_fields_have_owner : fields_have_owner db_two_fields.
Proof.
  intros f Hf. simpl in Hf.
  exists (mkRelativeEndpoint 1 1 "/users/{id}" "GET" "^/users/(?P<id>[^/]+)$" "{}").
  split; [now left|]. destruct Hf as [<-|[<-|[]]]; reflexivity.
Defined.

Lemma relative_endpoint_delete_cascades_witness :
  rows (relative_endpoints (fst (relative_endpoint_delete 1 db_two_fields))) = []
  /\ rows (fields (fst (relative_endpoint_delete 1 db_two_fields))) = [].
Proof.
  destruct (@relative_endpoint_delete_cascades 1 db_two_fields db_two_fields_have_owner)
    as [Hr [Hf _]].
  split; [rewrite Hr|rewrite Hf]; reflexivity.
Defined.

Lemma endpoint_schema_update_update_without_id_witness :
  exists db',
    endpoint_schema_update (models := sample_models) update_in_no_id db_two_fields
    = (db', inl (KeyError "id"))
    /\ rows (fields db') = [mkField 1 1 "uid" "id" "URL_PARAM" false]
    /\ relative_endpoints db' = relative_endpoints db_two_fields.
Proof.
  destruct (@endpoint_schema_update_update_without_id sample_models update_in_no_id
              db_two_fields
              (mkRelativeEndpoint 1 1 "/users/{id}" "GET" "^/users/(?P<id>[^/]+)$" "{}")
              [mkFieldIn (Some 1) "uid" "URL_PARAM" "id" false (Some true)] []
              (mkFieldIn None "q" "QUERY_PARAM" "query" false (Some true))
              eq_refl)
    as [db' [Hrun [Hrows [_ Hrel]]]].
  - intros f Hin _. simpl in Hin. destruct Hin as [<-|[<-|[]]]; reflexivity.
  - reflexivity.
  - intros f Hin. simpl in Hin. destruct Hin as [<-|[]]. discriminate.
  - reflexivity.
  - exists db'. split; [exact Hrun|]. split; [|exact Hrel].
    rewrite Hrows. reflexivity.
Defined.

Lemma endpoint_schema_update_keeps_keys_witness :
  field_keys_ok (fst (endpoint_schema_update (models := sample_models)
                        update_in_ok db_two_fields)).
Proof.
  exact (@endpoint_schema_update_keeps_keys sample_models update_in_ok db_two_fields
           db_two_fields_keys_ok).
Defined.

Lemma endpoint_schema_update_keeps_owners_witness :
  fields_have_owner (fst (endpoint_schema_update (models := sample_models)
                            update_in_ok db_two_fields)).
Proof.
  exact (proj2 (@endpoint_schema_update_keeps_owners sample_models update_in_ok
                  db_two_fields db_two_fields_have_owner)).
Defined.

Lemma endpoint_schema_update_frame_witness :
  In (mkField 2 1 "tags" "string" "VALUE" true)
     (rows (fields (fst (endpoint_schema_update (models := sample_models)
                           update_in_keep db_two_fields)))).
Proof.
  apply (@endpoint_schema_update_frame sample_models update_in_keep db_two_fields
           (mkRelativeEndpoint 1 1 "/users/{id}" "GET" "^/users/(?P<id>[^/]+)$" "{}")
           (mkField 2 1 "tags" "string" "VALUE" true) eq_refl).
  - intros f Hin Hm. simpl in Hin. destruct Hin as [<-|[<-|[]]]; [|reflexivity].
    exfalso. apply Hm. reflexivity.
  - intros f Hin Hm. simpl in Hin. destruct Hin as [<-|[<-|[]]]; discriminate.
  - simpl. right. now left.
  - right. exists (mkFieldIn (Some 2) "tags" "VALUE" "string" true None).
    split; [now left|]. split; [reflexivity|reflexivity].
  - intros f Hin Hm. simpl in Hin. destruct Hin as [<-|[<-|[]]]; discriminate.
Defined.

(* ================================================================== *)
(** * Further properties: the schema builder *)
(* ================================================================== *)

(** [index] gives the position of the first occurrence. *)
Lemma index_nth_error (v : string) (l : list string) :
  forall n, index v l = Some n ->
    0 <= n
    /\ nth_error l (Z.to_nat n) = Some v
    /\ forall m, (m < Z.to_nat n)%nat -> nth_error l m <> Some v.
Proof.
  induction l as [|x l IH]; simpl; intros n H; [discriminate|].
  destruct (String.eqb_spec x v) as [->|Hne].
  - injection H as <-. simpl. repeat split; [lia|]. intros m Hm. lia.
  - destruct (index v l) as [i|]; [|discriminate]. injection H as <-.
    destruct (IH i eq_refl) as [Hpos [Hnth Hfirst]].
    split; [lia|].
    replace (Z.to_nat (i + 1)) with (S (Z.to_nat i)) by lia.
    split; [exact Hnth|].
    intros [|m] Hm; simpl; [congruence|]. apply Hfirst. lia.
Qed.

Section SchemaBuilderMore.
Context {models : Models}.

Lemma schema_add_taken (data : SchemaIn) (db : DB) :
  exists_where (fun r => String.eqb (s_name r) (si_name data)) (schemas db) = true ->
  schema_add data db
  = (db, inl (NotAllowed (si_name data ++ " schema already exists")%string)).
Proof.
  intros H. unfold schema_add, bind, read. now rewrite H.
Qed.

(** Past the name test, the [Schema] table a call leaves is the old
    one with the new row, whatever the outcome. *)
Lemma schema_add_schemas (data : SchemaIn) (db : DB) :
  name_free (si_name data) db ->
  schemas (fst (schema_add data db)) = schemas (with_created_schema (si_name data) db).
Proof.
  intros Hfree. rewrite (schema_add_unfold data Hfree).
  pose proof (schema_add_loop_reads (created_schema (si_name data) db) (si_fields data)
                [] (with_created_schema (si_name data) db)) as Hr.
  destruct (schema_add_loop _ _ _ _) as [db' [e|pending]]; simpl in *; now subst.
Qed.

(** X12.  Once a call of [schema_add] has passed the name test, the name
    is taken, whether the call returned or raised on one of its fields:
    every later call with that name raises [NotAllowed] "... schema
    already exists" and writes nothing.  So the [Schema] row left by a
    call that failed on a field blocks a second attempt under the same
    name. *)
Theorem schema_add_name_stays_taken (data data' : SchemaIn) (db : DB) :
  name_free (si_name data) db ->
  si_name data' = si_name data ->
  let db1 := fst (schema_add data db) in
  schema_add data' db1
  = (db1, inl (NotAllowed (si_name data ++ " schema already exists")%string)).
Proof.
  intros Hfree Hname db1. rewrite <- Hname. apply schema_add_taken.
  unfold db1. unfold exists_where. rewrite (schema_add_schemas data Hfree).
  simpl. rewrite existsb_app. simpl. rewrite Hname, String.eqb_refl.
  now rewrite orb_true_r.
Qed.

(** X13.  [schema_add] keeps the schema names distinct, whatever the
    payload and whatever the outcome. *)
Theorem schema_add_keeps_names_unique (data : SchemaIn) (db : DB) :
  unique_schema_names db ->
  unique_schema_names (fst (schema_add data db)).
Proof.
  intros Hu.
  destruct (exists_where (fun r => String.eqb (s_name r) (si_name data)) (schemas db))
    eqn:E.
  - now rewrite (schema_add_taken data db E).
  - assert (Hfree : name_free (si_name data) db).
    { intros s Hs Heq. rewrite exists_where_false in E. specialize (E s Hs).
      simpl in E. apply String.eqb_neq in E. contradiction. }
    unfold unique_schema_names. rewrite (schema_add_schemas data Hfree).
    now apply with_created_schema_unique.
Qed.

Lemma keyed_from_map (A B : Type) (g : A -> Z -> SchemaData) (h : SchemaData -> B)
    (k : A -> B) (l : list A) :
  (forall a i, h (g a i) = k a) ->
  forall i, map h (keyed_from i (map g l)) = map k l.
Proof.
  intros H. induction l as [|a l IH]; intros i; simpl; [reflexivity|].
  now rewrite H, IH.
Qed.

Lemma keyed_from_forall2 (A : Type) (g : A -> Z -> SchemaData)
    (P : A -> SchemaData -> Prop) (l : list A) :
  (forall a i, In a l -> P a (g a i)) ->
  forall i, Forall2 P l (keyed_from i (map g l)).
Proof.
  induction l as [|a l IH]; intros H i; simpl; constructor.
  - apply H. now left.
  - apply IH. intros b j Hb. apply H. now right.
Qed.

(** X14.  When [schema_add] returns (free name, distinct schema names,
    every field valid), the [SchemaData] table has grown by one row per
    field, in the order of the request, each row carrying the key and
    type of its field and the id of the new schema; and for a field
    whose type is not "schema" the stored value is the zero-based
    position of the field's value in [CHOICES]: looking that position
    up gives the value back. *)
Theorem schema_add_rows_decode (data : SchemaIn) (db : DB) :
  name_free (si_name data) db ->
  unique_schema_names db ->
  (forall f, In f (si_fields data) ->
             ~ field_invalid (with_created_schema (si_name data) db) f) ->
  exists db2 detail news,
    schema_add data db = (db2, inr detail)
    /\ rows (schema_datas db2) = rows (schema_datas db) ++ news
    /\ map sd_key news = map sfi_key (si_fields data)
    /\ map sd_type news = map sfi_type (si_fields data)
    /\ map sd_schema_id news
       = map (fun _ => s_id (created_schema (si_name data) db)) (si_fields data)
    /\ Forall2 (fun f sd =>
                  sfi_type f <> "schema"%string ->
                  0 <= sd_value sd
                  /\ nth_error CHOICES (Z.to_nat (sd_value sd)) = Some (sfi_value f))
         (si_fields data) news.
Proof.
  intros Hfree Hu Hall.
  set (schema := created_schema (si_name data) db).
  set (db1 := with_created_schema (si_name data) db).
  rewrite (schema_add_unfold data Hfree). fold schema db1.
  rewrite schema_add_loop_resolves.
  - simpl app. eexists. eexists.
    exists (keyed_from (next_pk sd_id (schema_datas db))
              (map (spec_schema_data db1 schema) (si_fields data))).
    split; [reflexivity|]. split.
    { simpl. rewrite bulk_create_rows; [reflexivity|].
      intros mk i Hmk. apply in_map_iff in Hmk. destruct Hmk as [g [<- _]].
      reflexivity. }
    split; [apply keyed_from_map; reflexivity|].
    split; [apply keyed_from_map; reflexivity|].
    split; [apply keyed_from_map; reflexivity|].
    apply keyed_from_forall2. intros f i Hf Ht. simpl.
    assert (Hv : spec_resolve db1 f <> None).
    { intros H. apply (Hall f Hf). now apply spec_resolve_none. }
    unfold spec_resolve in *. apply String.eqb_neq in Ht. rewrite Ht in *.
    destruct (index (sfi_value f) CHOICES) as [n|] eqn:E; [|congruence].
    destruct (index_nth_error _ _ E) as [Hpos [Hnth _]]. auto.
  - now apply with_created_schema_unique.
  - intros f Hf H. apply (Hall f Hf). now apply spec_resolve_none.
Qed.

End SchemaBuilderMore.

Lemma schema_add_name_stays_taken_witness :
  schema_add (models := sample_models) (mkSchemaIn "User" [])
    (fst (schema_add (models := sample_models) schema_in_bad empty_db))
  = (set_schemas (mkTable [mkSchema 1 "User"] 1) empty_db,
     inl (NotAllowed "User schema already exists")).
Proof.
  apply (@schema_add_name_stays_taken sample_models schema_in_bad (mkSchemaIn "User" [])
           empty_db).
  - intros s [].
  - reflexivity.
Defined.

Lemma schema_add_keeps_names_unique_witness :
  unique_schema_names (fst (schema_add (models := sample_models) schema_in_node empty_db)).
Proof.
  apply (@schema_add_keeps_names_unique sample_models schema_in_node empty_db).
  constructor.
Defined.

Lemma schema_add_rows_decode_witness :
  exists db2 detail news,
    schema_add (models := sample_models) schema_in_node empty_db = (db2, inr detail)
    /\ rows (schema_datas db2) = news
    /\ map sd_key news = ["label"; "next"]%string.
Proof.
  destruct (@schema_add_rows_decode sample_models schema_in_node empty_db)
    as [db2 [detail [news [Hrun [Hrows [Hkeys _]]]]]].
  - intros s [].
  - constructor.
  - intros f Hf Hbad. simpl in Hf. destruct Hf as [<-|[<-|[]]].
    + destruct Hbad as [[H _]|[_ H]]; [discriminate|]. apply H. simpl. auto.
    + destruct Hbad as [[_ H]|[H _]]; [|now apply H].
      apply (H (mkSchema 1 "Node")); [simpl; now left|reflexivity].
  - exists db2, detail, news. split; [exact Hrun|]. split; [exact Hrows|exact Hkeys].
Defined.

(* ================================================================== *)
(** * Further properties: base_endpoint_add *)
(* ================================================================== *)

(** X15.  On distinct endpoint strings [base_endpoint_add] returns a
    row whose [endpoint] is the input without its first character when
    that is a slash, and keeps the strings distinct.  Either the row
    was there and nothing is written, or no row had that string and the
    table grows by the returned row alone, under an id above every id
    that was there; no other table is written. *)
Theorem base_endpoint_add_appends (endpoint : string) (db : DB) :
  unique_endpoints db ->
  exists r created db',
    base_endpoint_add endpoint db = (db', inr (r, created))
    /\ be_endpoint r
       = (if startswith_slash endpoint then drop_first endpoint else endpoint)
    /\ unique_endpoints db'
    /\ (created = false -> db' = db /\ In r (rows (base_endpoints db)))
    /\ (created = true ->
        rows (base_endpoints db') = rows (base_endpoints db) ++ [r]
        /\ forall x, In x (rows (base_endpoints db)) ->
                     be_endpoint x <> be_endpoint r /\ be_id x < be_id r)
    /\ relative_endpoints db' = relative_endpoints db
    /\ fields db' = fields db
    /\ schemas db' = schemas db
    /\ schema_datas db' = schema_datas db.
Proof.
  intros Hu. unfold base_endpoint_add.
  set (e := if startswith_slash endpoint then drop_first endpoint else endpoint).
  destruct (base_endpoint_get_or_create_twice e Hu)
    as [r [c [db1 [H1 [_ [Hk Hu1]]]]]].
  exists r, c, db1. split; [exact H1|]. split; [exact Hk|]. split; [exact Hu1|].
  unfold base_endpoint_get_or_create in H1.
  destruct (orm_get _ (base_endpoints db)) as [[]|x] eqn:Hget; simpl in H1;
    try discriminate.
  - injection H1 as <- <- <-. simpl.
    split; [discriminate|]. split; [|repeat split].
    intros _. split; [reflexivity|].
    intros x Hx. split.
    + simpl. intros Heq.
      unfold orm_get in Hget.
      destruct (filter _ (rows (base_endpoints db))) as [|y [|z l]] eqn:Ef;
        try discriminate.
      assert (Hin : In x (filter (fun r => String.eqb (be_endpoint r) e)
                            (rows (base_endpoints db))))
        by (apply filter_In; split; [assumption|now apply String.eqb_eq]).
      now rewrite Ef in Hin.
    + simpl. now apply next_pk_fresh.
  - injection H1 as <- <- <-.
    split; [|split; [discriminate|repeat split]].
    intros _. split; [reflexivity|].
    now destruct (orm_get_inr _ _ Hget) as [_ [Hin _]].
Qed.

Lemma base_endpoint_add_appends_witness :
  exists r created db',
    base_endpoint_add "/shop" db_one_endpoint = (db', inr (r, created))
    /\ be_endpoint r = "shop"%string
    /\ unique_endpoints db'.
Proof.
  destruct (@base_endpoint_add_appends "/shop" db_one_endpoint)
    as [r [c [db' [H1 [H2 [H3 _]]]]]].
  - repeat constructor. simpl. tauto.
  - exists r, c, db'. split; [exact H1|]. split; [exact H2|exact H3].
Defined.

(* ================================================================== *)
(** * Further properties: export and import *)
(* ================================================================== *)

Section ExportImportMore.
Context {models : Models} {json : Json}.

(** What [data_export] returns when every [meta_data] parses. *)
Lemma data_export_ok (db : DB) :
  meta_data_parses db ->
  exists ds,
    data_export db
    = (db, inr (mkSnapshot
                  (map base_endpoint_detail (rows (base_endpoints db)))
                  ds
                  (map (schema_detail db) (rows (schemas db)))
                  (map field_detail (rows (fields db)))
                  (map schema_data_detail (rows (schema_datas db)))))
    /\ relative_endpoints_detail db (rows (relative_endpoints db)) = inr ds
    /\ map import_relative_endpoint ds = map reserialized (rows (relative_endpoints db))
    /\ flat_map (fun d => map (import_field d) (red_fields d)) ds
       = flat_map (fun r => filter (fun f => f_relative_endpoint_id f =? re_id r)
                              (rows (fields db))) (rows (relative_endpoints db)).
Proof.
  intros Hparse.
  destruct (relative_endpoints_detail_ok db (rows (relative_endpoints db)) Hparse)
    as [ds [Hds [Hm Hf]]].
  exists ds. split; [|auto].
  unfold data_export, bind, read, lift, ret. now rewrite Hds.
Qed.


Lemma import_field_ids (l : list RelativeEndpointDetail) :
  map f_id (flat_map (fun d => map (import_field d) (red_fields d)) l)
  = map fd_id (flat_map red_fields l).
Proof.
  induction l as [|d l IH]; simpl; [reflexivity|].
  rewrite !map_app, IH, map_map. reflexivity.
Qed.

(** X17.  [data_import] replaces and does not merge.  For a snapshot
    the database accepts (distinct ids in each list, no repeated base
    endpoint string, schema name or endpoint triple, owners listed) the
    call returns, and the rows it leaves in the five tables are those
    of the snapshot, whatever the database held before; the
    auto-increment marks do not go down, and the database it leaves has
    distinct ids, endpoint strings, triples and schema names and every
    field with its endpoint. *)
Theorem data_import_replaces (data : Snapshot) (db0 : DB) :
  snapshot_consistent data ->
  let db' := fst (data_import data db0) in
  snd (data_import data db0) = inr tt
  /\ rows (base_endpoints db') = map import_base_endpoint (snap_base_endpoints data)
  /\ rows (relative_endpoints db')
     = map import_relative_endpoint (snap_relative_endpoints data)
  /\ rows (fields db')
     = flat_map (fun d => map (import_field d) (red_fields d))
         (snap_relative_endpoints data)
  /\ rows (schemas db') = map import_schema (snap_schema data)
  /\ rows (schema_datas db') = map import_schema_data (snap_schema_data data)
  /\ (last_pk (base_endpoints db0) <= last_pk (base_endpoints db')
      /\ last_pk (relative_endpoints db0) <= last_pk (relative_endpoints db')
      /\ last_pk (fields db0) <= last_pk (fields db')
      /\ last_pk (schemas db0) <= last_pk (schemas db')
      /\ last_pk (schema_datas db0) <= last_pk (schema_datas db'))
  /\ unique_endpoints db'
  /\ unique_relative_endpoint_ids db'
  /\ unique_urls db'
  /\ NoDup (map f_id (rows (fields db')))
  /\ fields_have_owner db'
  /\ unique_schema_names db'.
Proof.
  intros [Hbid [Hbe [Hrid [Hurl [Hbase [Hfid [Hsid [Hsn [Hdid Hsch]]]]]]]]].
  unfold data_import. rewrite import_relative_endpoints_acc. simpl app.
  unfold bind, write. cbv zeta. cbn [fst snd].
  unfold unique_endpoints, unique_relative_endpoint_ids, unique_urls,
    unique_schema_names, fields_have_owner.
  cbn [delete_everything set_base_endpoints set_relative_endpoints set_fields
       set_schemas set_schema_datas base_endpoints relative_endpoints fields
       schemas schema_datas bulk_create_keyed delete_all rows last_pk app].
  split; [reflexivity|]. split; [reflexivity|]. split; [reflexivity|].
  split; [reflexivity|]. split; [reflexivity|]. split; [reflexivity|].
  split; [repeat split; lia|].
  split; [now rewrite map_map|].
  split; [now rewrite map_map|].
  split; [now rewrite map_map|].
  split; [now rewrite import_field_ids|].
  split; [|now rewrite map_map].
  intros f Hf. apply in_flat_map in Hf. destruct Hf as [d [Hd Hf]].
  apply in_map_iff in Hf. destruct Hf as [fd [<- _]].
  exists (import_relative_endpoint d). split; [now apply in_map|reflexivity].
Qed.

(** X21.  [data_import] empties the five tables before it reads the
    payload.  When the key 'base_endpoints' is missing the call raises
    [KeyError] for it and all five tables are left empty.  When that
    list is there, with distinct ids and endpoint strings, and the key
    'relative_endpoints' is missing, the call raises [KeyError] for
    that key, the base endpoints of the payload are stored and the
    other four tables are empty.  With all four keys present
    [data_import_keys] is [data_import]. *)
Theorem data_import_missing_key (data : RawSnapshot) (db0 : DB) :
  let db' := fst (data_import_keys data db0) in
  (raw_base_endpoints data = None ->
   snd (data_import_keys data db0) = inl (KeyError "base_endpoints")
   /\ rows (base_endpoints db') = []
   /\ rows (relative_endpoints db') = []
   /\ rows (fields db') = []
   /\ rows (schemas db') = []
   /\ rows (schema_datas db') = [])
  /\ (forall base,
        raw_base_endpoints data = Some base ->
        raw_relative_endpoints data = None ->
        NoDup (map bed_id base) -> NoDup (map bed_endpoint base) ->
        snd (data_import_keys data db0) = inl (KeyError "relative_endpoints")
        /\ rows (base_endpoints db') = map import_base_endpoint base
        /\ rows (relative_endpoints db') = []
        /\ rows (fields db') = []
        /\ rows (schemas db') = []
        /\ rows (schema_datas db') = [])
  /\ forall snap, data_import_keys (raw_of snap) db0 = data_import snap db0.
Proof.
  unfold data_import_keys, bind, write, raise.
  split; [|split].
  - intros ->. simpl. repeat split.
  - intros base -> -> _ _. simpl. repeat split.
  - intros snap. unfold data_import, bind, write. simpl.
    destruct (import_relative_endpoints _ _ _). reflexivity.
Qed.

End ExportImportMore.


Lemma data_import_missing_key_witness :
  rows (base_endpoints
          (fst (data_import_keys (json := sample_json)
                  (mkRawSnapshot None None None None) db_stored))) = []
  /\ rows (fields
             (fst (data_import_keys (json := sample_json)
                     (mkRawSnapshot None None None None) db_stored))) = []
  /\ rows (base_endpoints
             (fst (data_import_keys (json := sample_json)
                     (mkRawSnapshot (Some [mkBaseEndpointDetail 5 "shop"]) None None None)
                     db_stored)))
     = [mkBaseEndpoint 5 "shop"].
Proof.
  destruct (@data_import_missing_key sample_json
              (mkRawSnapshot None None None None) db_stored) as [H _].
  destruct (H eq_refl) as [_ [Hb [_ [Hf _]]]].
  destruct (@data_import_missing_key sample_json
              (mkRawSnapshot (Some [mkBaseEndpointDetail 5 "shop"]) None None None)
              db_stored) as [_ [H2 _]].
  destruct (H2 [mkBaseEndpointDetail 5 "shop"] eq_refl eq_refl) as [_ [Hb2 _]].
  - repeat constructor. simpl. tauto.
  - repeat constructor. simpl. tauto.
  - split; [exact Hb|]. split; [exact Hf|exact Hb2].
Defined.

Lemma snapshot_small_consistent : snapshot_consistent snapshot_small.
Proof.
  unfold snapshot_consistent, snapshot_small. simpl.
  repeat split; try (repeat constructor; simpl; tauto).
  - intros d [<-|[]]. simpl. now left.
  - intros d [<-|[]]. simpl. now left.
Defined.

Lemma data_import_replaces_witness :
  rows (relative_endpoints (fst (data_import snapshot_small db_stored)))
  = [mkRelativeEndpoint 7 1 "/users" "GET" "^/users$" "{}"]
  /\ rows (fields (fst (data_import snapshot_small db_stored)))
     = [mkField 3 7 "page" "p" "QUERY_PARAM" false]
  /\ fields_have_owner (fst (data_import snapshot_small db_stored)).
Proof.
  destruct (@data_import_replaces sample_json snapshot_small db_stored
              snapshot_small_consistent)
    as [_ [_ [Hr [Hf [_ [_ [_ [_ [_ [_ [_ [Hown _]]]]]]]]]]]].
  split; [rewrite Hr; reflexivity|]. split; [rewrite Hf; reflexivity|exact Hown].
Defined.

(* ---------------------------------------------------------------- *)
(** ** Exporting again after the import *)
(* ---------------------------------------------------------------- *)

Lemma filter_filter_none (A : Type) (p q : A -> bool) (l : list A) :
  (forall x, p x = true -> q x = true -> False) ->
  filter q (filter p l) = [].
Proof.
  intros Hd. induction l as [|x l IH]; simpl; [reflexivity|].
  destruct (p x) eqn:Ep; simpl; [|exact IH].
  destruct (q x) eqn:Eq; [exfalso; eauto|exact IH].
Qed.

(** Among fields grouped by endpoint, those of one endpoint are its
    group, in the stored order. *)
Lemma filter_owner_grouped (rels : list RelativeEndpoint) (fs : list Field)
    (r0 : RelativeEndpoint) :
  NoDup (map re_id rels) ->
  (In r0 rels ->
   filter (fun f => f_relative_endpoint_id f =? re_id r0)
     (flat_map (fun r => filter (fun f => f_relative_endpoint_id f =? re_id r) fs) rels)
   = filter (fun f => f_relative_endpoint_id f =? re_id r0) fs)
  /\ (~ In (re_id r0) (map re_id rels) ->
      filter (fun f => f_relative_endpoint_id f =? re_id r0)
        (flat_map (fun r => filter (fun f => f_relative_endpoint_id f =? re_id r) fs) rels)
      = []).
Proof.
  induction rels as [|r rels IH]; intros Hnd; simpl.
  - split; [tauto|reflexivity].
  - inversion Hnd as [|? ? Hnotin Hnd']; subst.
    destruct (IH Hnd') as [IHin IHout].
    rewrite filter_app. split.
    + intros [->|Hin].
      * rewrite filter_filter_same, IHout by assumption. apply app_nil_r.
      * rewrite filter_filter_none, IHin by
          (try assumption; intros f Hp Hq; apply Z.eqb_eq in Hp, Hq;
           apply Hnotin; replace (re_id r) with (re_id r0) by congruence;
           now apply in_map).
        reflexivity.
    + intros Hno. rewrite filter_filter_none, IHout; [reflexivity|tauto|].
      intros f Hp Hq. apply Z.eqb_eq in Hp, Hq. apply Hno. left. congruence.
Qed.

Section ExportAgain.
Context {models : Models} {json : Json}.

(** The views of the endpoints read the [Field] table only through
    the fields of each endpoint. *)
Lemma relative_endpoints_detail_ext (db db' : DB) (l : list RelativeEndpoint) :
  (forall r, In r l ->
     filter (fun f => f_relative_endpoint_id f =? re_id r) (rows (fields db'))
     = filter (fun f => f_relative_endpoint_id f =? re_id r) (rows (fields db))) ->
  relative_endpoints_detail db' l = relative_endpoints_detail db l.
Proof.
  induction l as [|r l IH]; intros H; simpl; [reflexivity|].
  rewrite IH by (intros x Hx; apply H; now right).
  unfold relative_endpoint_detail. rewrite (H r (or_introl eq_refl)). reflexivity.
Qed.

(** X18.  With distinct endpoint ids, every field owned by a stored
    endpoint and every [meta_data] stored as [json.dumps] writes it, an
    export after the import of an export gives the first snapshot
    again: the same lists of base endpoints, relative endpoints (with
    their embedded fields in the same order), schemas and schema data,
    and the same flat list of fields up to its order. *)
Theorem export_import_export (db db0 : DB) :
  unique_relative_endpoint_ids db ->
  fields_have_owner db ->
  meta_data_canonical db ->
  exists snap db' snap',
    data_export db = (db, inr snap)
    /\ data_import snap db0 = (db', inr tt)
    /\ data_export db' = (db', inr snap')
    /\ snap_base_endpoints snap' = snap_base_endpoints snap
    /\ snap_relative_endpoints snap' = snap_relative_endpoints snap
    /\ snap_schema snap' = snap_schema snap
    /\ snap_schema_data snap' = snap_schema_data snap
    /\ Permutation (snap_fields snap') (snap_fields snap).
Proof.
  intros Hnd Hown Hcan.
  assert (Hparse : meta_data_parses db).
  { intros r Hr. destruct (Hcan r Hr) as [j [Hj _]]. congruence. }
  destruct (@data_export_ok _ _ db Hparse) as [ds [Hex [Hds [Hm Hf]]]].
  destruct (data_import_rows
              (mkSnapshot
                 (map base_endpoint_detail (rows (base_endpoints db)))
                 ds
                 (map (schema_detail db) (rows (schemas db)))
                 (map field_detail (rows (fields db)))
                 (map schema_data_detail (rows (schema_datas db)))) db0)
    as [db' [Him [Hb [Hr [Hfl [Hs Hsd]]]]]].
  simpl in Hb, Hr, Hfl, Hs, Hsd.
  rewrite import_base_endpoint_detail in Hb.
  rewrite import_schema_detail in Hs.
  rewrite import_schema_data_detail in Hsd.
  rewrite Hm, (reserialized_canonical _ Hcan) in Hr.
  rewrite Hf in Hfl.
  assert (Hparse' : meta_data_parses db').
  { intros r Hr'. rewrite Hr in Hr'. now apply Hparse. }
  destruct (@data_export_ok _ _ db' Hparse') as [ds' [Hex' [Hds' _]]].
  assert (Hsame : ds' = ds).
  { rewrite Hr in Hds'.
    rewrite (relative_endpoints_detail_ext db db') in Hds'.
    - congruence.
    - intros r Hrin. rewrite Hfl.
      now apply (proj1 (@filter_owner_grouped (rows (relative_endpoints db))
                          (rows (fields db)) r Hnd)). }
  eexists. exists db'. eexists.
  split; [exact Hex|]. split; [exact Him|]. split; [exact Hex'|].
  simpl. rewrite Hb, Hs, Hsd, Hsame.
  split; [reflexivity|]. split; [reflexivity|]. split.
  - apply map_ext. intros s. unfold schema_detail. now rewrite Hsd.
  - split; [reflexivity|].
    apply Permutation_map. rewrite Hfl. now apply group_by_owner_all.
Qed.

End ExportAgain.

Lemma db_stored_canonical : meta_data_canonical (json := sample_json) db_stored.
Proof.
  intros r _. exists (re_meta_data r). split; reflexivity.
Defined.

Lemma export_import_export_witness :
  exists snap db' snap',
    data_export (models := sample_models) (json := sample_json) db_stored
    = (db_stored, inr snap)
    /\ data_import snap empty_db = (db', inr tt)
    /\ data_export (models := sample_models) db' = (db', inr snap')
    /\ snap_relative_endpoints snap' = snap_relative_endpoints snap.
Proof.
  destruct db_stored_invariants as [Hnd [Hown _]].
  destruct (@export_import_export sample_models sample_json db_stored empty_db
              Hnd Hown db_stored_canonical)
    as [snap [db' [snap' [H1 [H2 [H3 [_ [H4 _]]]]]]]].
  exists snap, db', snap'. repeat split; assumption.
Defined.

(* ================================================================== *)
(** * Further properties: the views *)
(* ================================================================== *)

Section Views.
Context {models : Models}.

(** X19.  The view [add_schema] runs [schema_add] under
    [transaction.atomic]: when the name is free and a field is invalid,
    the view raises and leaves the database as it found it, so no
    [Schema] row remains and the name is still free for a corrected
    request; when [schema_add] returns, the view returns the same value
    and leaves the same database. *)
Theorem add_schema_rolls_back (data : SchemaIn) (db : DB) :
  name_free (si_name data) db ->
  ((exists f, In f (si_fields data)
              /\ field_invalid (with_created_schema (si_name data) db) f) ->
   (exists e, add_schema data db = (db, inl e))
   /\ name_free (si_name data) (fst (add_schema data db))
   /\ ~ name_free (si_name data) (fst (schema_add data db)))
  /\ (forall db2 detail, schema_add data db = (db2, inr detail) ->
        add_schema data db = (db2, inr detail)).
Proof.
  intros Hfree. split.
  - intros [f [Hf Hbad]].
    assert (Hex : exists g, In g (si_fields data)
                            /\ spec_resolve (with_created_schema (si_name data) db) g
                               = None).
    { exists f. split; [assumption|]. now apply spec_resolve_none. }
    destruct (@schema_add_loop_fails models (created_schema (si_name data) db)
                (with_created_schema (si_name data) db) (si_fields data) Hex [])
      as [e He].
    assert (Hrun : schema_add data db = (with_created_schema (si_name data) db, inl e))
      by (rewrite (schema_add_unfold data Hfree), He; reflexivity).
    assert (Hview : add_schema data db = (db, inl e))
      by (unfold add_schema, atomic, bind; now rewrite Hrun).
    split; [eauto|]. rewrite Hview, Hrun. simpl fst. split; [exact Hfree|].
    intros Hfree'. apply (Hfree' (created_schema (si_name data) db)); [|reflexivity].
    simpl. apply in_or_app. right. now left.
  - intros db2 detail Hrun. unfold add_schema, atomic, bind, ret. now rewrite Hrun.
Qed.

End Views.

Lemma add_schema_rolls_back_witness :
  (exists e, add_schema (models := sample_models) schema_in_bad empty_db = (empty_db, inl e))
  /\ name_free "User" (fst (add_schema (models := sample_models) schema_in_bad empty_db)).
Proof.
  assert (Hfree : name_free (si_name schema_in_bad) empty_db) by (intros s []).
  destruct (@add_schema_rolls_back sample_models schema_in_bad empty_db Hfree)
    as [Hfail _].
  destruct Hfail as [He [Hn _]].
  - exists (mkSchemaFieldIn "age" "primitive" "float"). split.
    + simpl. right. now left.
    + right. split; [discriminate|].
      simpl. intros [H|[H|[H|[]]]]; discriminate.
  - split; [exact He|exact Hn].
Defined.

(** X20.  The view [add_base_endpoint] builds its response from the
    attribute [id] of what [base_endpoint_add] returns, the pair of
    [get_or_create]: on distinct endpoint strings the row is found or
    stored as by [base_endpoint_add], and the view then ends in
    [AttributeError] instead of a response. *)
Theorem add_base_endpoint_has_no_id (endpoint : string) (db : DB) :
  unique_endpoints db ->
  exists r created db' msg,
    base_endpoint_add endpoint db = (db', inr (r, created))
    /\ add_base_endpoint endpoint db = (db', inl (AttributeError msg))
    /\ In r (rows (base_endpoints db')).
Proof.
  intros Hu. unfold add_base_endpoint, base_endpoint_add.
  set (e := if startswith_slash endpoint then drop_first endpoint else endpoint).
  destruct (base_endpoint_get_or_create_twice e Hu)
    as [r [c [db1 [H1 [H2 _]]]]].
  exists r, c, db1. rewrite H1. eexists. split; [reflexivity|]. split; [reflexivity|].
  unfold base_endpoint_get_or_create in H2.
  destruct (orm_get _ (base_endpoints db1)) as [[]|x] eqn:Hget;
    unfold create in H2; simpl in H2; try discriminate.
  injection H2 as <-. now destruct (orm_get_inr _ _ Hget) as [_ [Hin _]].
Qed.

Lemma add_base_endpoint_has_no_id_witness :
  exists r created db' msg,
    base_endpoint_add "/shop" db_one_endpoint = (db', inr (r, created))
    /\ add_base_endpoint "/shop" db_one_endpoint = (db', inl (AttributeError msg))
    /\ In r (rows (base_endpoints db')).
Proof.
  apply (@add_base_endpoint_has_no_id "/shop" db_one_endpoint).
  repeat constructor. simpl. tauto.
Defined.
